(** * react-native-permission-flow: the permission hook and the settings flow

    A shallow embedding of [usePermission] (with its [request] callback,
    [maybeRequestPermission]) and of [openPermissionSettings] from
    [PermissionSettingsModal/index.tsx].

    The asynchronous functions of the source are written in a small
    resumption monad [Task]: synchronous work (reads and writes of the
    hook's refs, fire-and-forget calls such as [captureSentry] and
    [forceUpdate]) and the points where the function is suspended
    ([await]).  Two semantics are given over it: [run], one call driven to
    the end against an environment that answers every awaited promise, and
    [step], the event loop of a mounted hook, where several calls of
    [request] interleave at their [await]s.  [request_alone_is_run], at the
    end, relates the two.

    What one call does (its acquisition sequence, the Settings Redirect
    Flow) is stated over [run]; what holds of a hook across calls (one call
    at a time, no [forceUpdate] under [noRender]) is stated over [step], as
    an invariant of the worlds reachable from [mount].

    The components [PermissionSettingsModal], [ScannerView] and
    [NotYetGrantedView] are embedded as functions to the elements they
    render, without styles.  The second part of the properties is about
    them, about what a call does from [ask()] on and when a dialog fails,
    and about the mounted hook between calls. *)

From Stdlib Require Import ZArith List String Bool Lia.
Import ListNotations.
Local Open Scope string_scope.
Local Open Scope list_scope.
Local Open Scope Z_scope.

(** ** Data model *)

(** [enum PermissionState] *)
Inductive PermissionState : Type :=
| Granted
| Denied
| UnexpectedError
| NotYetRequested
| Requesting.

(** [enum PermissionType] *)
Inductive PermissionType : Type :=
| camera
| notifications
| location.

(** [PermissionStatus] of expo.  The enum has three members; the last
    branch of [maybeRequestPermission] handles whatever else the platform
    hands back, which is [UNHANDLED] here. *)
Inductive PermissionStatus : Type :=
| GRANTED
| DENIED
| UNDETERMINED
| UNHANDLED.

(** The two fields of a [PermissionResponse] that the hook reads. *)
Record PermissionResponse : Type := {
  status : PermissionStatus;
  canAskAgain : bool
}.

(** [IUsePermissionInputs]: [options] and both of its fields are optional,
    and the code tests them for truthiness with [options?.field]. *)
Record Options : Type := {
  autoRequest : option bool;
  noRender : option bool
}.

Record Inputs : Type := {
  type : PermissionType;
  getReason : string;          (* the value of [getReason()] *)
  options : option Options
}.

Definition truthy (b : option bool) : bool :=
  match b with Some true => true | _ => false end.

(** [inputs.options?.autoRequest] and [inputs.options?.noRender] *)
Definition opt_autoRequest (i : Inputs) : bool :=
  match options i with Some o => truthy (autoRequest o) | None => false end.

Definition opt_noRender (i : Inputs) : bool :=
  match options i with Some o => truthy (noRender o) | None => false end.

(** The three refs of the hook: [savedInputs], [savedState] and
    [savedIsAutoRequest]. *)
Record Store : Type := {
  savedInputs : Inputs;
  savedState : PermissionState;
  savedIsAutoRequest : bool
}.

Definition set_savedState (s : Store) (v : PermissionState) : Store :=
  {| savedInputs := savedInputs s; savedState := v;
     savedIsAutoRequest := savedIsAutoRequest s |}.

Definition set_savedIsAutoRequest (s : Store) (v : bool) : Store :=
  {| savedInputs := savedInputs s; savedState := savedState s;
     savedIsAutoRequest := v |}.

Definition set_savedInputs (s : Store) (v : Inputs) : Store :=
  {| savedInputs := v; savedState := savedState s;
     savedIsAutoRequest := savedIsAutoRequest s |}.

Definition PermissionState_eqb (a b : PermissionState) : bool :=
  match a, b with
  | Granted, Granted | Denied, Denied | UnexpectedError, UnexpectedError
  | NotYetRequested, NotYetRequested | Requesting, Requesting => true
  | _, _ => false
  end.

Definition PermissionStatus_eqb (a b : PermissionStatus) : bool :=
  match a, b with
  | GRANTED, GRANTED | DENIED, DENIED | UNDETERMINED, UNDETERMINED
  | UNHANDLED, UNHANDLED => true
  | _, _ => false
  end.

(** The host: [Platform.OS] and [Constants.manifest.android.package]. *)
Inductive PlatformOS : Type := ios | android | other_os.

Record Host : Type := {
  OS : PlatformOS;
  android_package : string
}.

Definition is_ios (h : Host) : bool :=
  match OS h with ios => true | _ => false end.

Definition is_android (h : Host) : bool :=
  match OS h with android => true | _ => false end.

(** [AppStateStatus] of react-native *)
Inductive AppStateStatus : Type := active | background | inactive.

(** Translation is outside the model: [i18n.t key] stands for itself. *)
Definition i18n_t (key : string) : string := key.

(** A step of the instructions: [{ label, image }], the image optional. *)
Record Step : Type := {
  label : string;
  image : option string
}.

(** What is handed to [modal.open]. *)
Inductive ModalContent : Type :=
| PermissionSettingsModal (title message : string) (steps : list Step)
| BasicModal (title message button : string).

(** The provider methods [check] and [ask] are bound to. *)
Inductive PermissionName : Type := LOCATION | NOTIFICATIONS.

Inductive ProviderCall : Type :=
| BarCodeScanner_requestPermissionsAsync
| BarCodeScanner_getPermissionsAsync
| Permissions_askAsync (p : PermissionName)
| Permissions_getAsync (p : PermissionName).

(** The other awaited promises: [Promise.all] over [Asset.loadAsync], and
    [modal.open]. *)
Inductive VoidCall : Type :=
| Asset_loadAsync_all (assets : list string)
| modal_open (content : ModalContent).

Definition Error : Type := string.

(** How an awaited promise settles. *)
Inductive Outcome (X : Type) : Type :=
| Fulfilled (x : X)
| Rejected (e : Error).
Arguments Fulfilled {X} x.
Arguments Rejected {X} e.

(** The [extras] of a report. *)
Inductive Extras : Type :=
| no_extras
| extras_state (state : PermissionState)
| extras_check (checkResponse : PermissionResponse)
| extras_ask_check (askResponse checkResponse : PermissionResponse).

(** What a call does to the world outside the refs, in the order it does
    it.  [called_openPermissionSettings] and
    [returned_openPermissionSettings] mark where the Settings Redirect
    Flow is entered and where its promise resolves; [invoked_provider] and
    [invoked_void] are the calls whose promises are awaited. *)
Inductive Event : Type :=
| captureSentry (what origin : string) (permission : PermissionType)
    (extras : Extras)
| forceUpdate
| resolve (value : PermissionState)
| invoked_provider (c : ProviderCall)
| invoked_void (c : VoidCall)
| called_openPermissionSettings (t : PermissionType) (message : string)
| returned_openPermissionSettings
| Linking_openURL (url : string)
| IntentLauncher_startActivityAsync (action data : string) (flags : Z)
| AppState_addEventListener
| AppState_removeEventListener.

(** What the listener of [openPermissionSettings] does when it is called:
    it may remove itself and may resolve the promise it was made in. *)
Inductive HandlerEffect : Type :=
| removeEventListener
| resolve_undefined.

Definition Handler : Type := AppStateStatus -> Z -> list HandlerEffect.

(** ** Asynchronous functions *)

(** A [Task R] is the body of an async function.  [Get], [Put], [Emit]
    and [Moment] run at once; at [AwaitProvider] and [AwaitVoid] the
    function is suspended until the promise settles, and the continuation
    sees how it settled (a [try]/[catch] around the [await] inspects it);
    [AwaitAppState h k] is
    [await new Promise(resolve => AppState.addEventListener('change', h))],
    resumed when [h] resolves. *)
Inductive Task (R : Type) : Type :=
| Ret (r : R)
| Throw (e : Error)
| Get (k : Store -> Task R)
| Put (s : Store) (k : Task R)
| Emit (e : Event) (k : Task R)
| Moment (k : Z -> Task R)
| AwaitProvider (c : ProviderCall) (k : Outcome PermissionResponse -> Task R)
| AwaitVoid (c : VoidCall) (k : Outcome unit -> Task R)
| AwaitAppState (h : Handler) (k : Task R).
Arguments Ret {R} r.
Arguments Throw {R} e.
Arguments Get {R} k.
Arguments Put {R} s k.
Arguments Emit {R} e k.
Arguments Moment {R} k.
Arguments AwaitProvider {R} c k.
Arguments AwaitVoid {R} c k.
Arguments AwaitAppState {R} h k.

Fixpoint bind {A B : Type} (t : Task A) (f : A -> Task B) : Task B :=
  match t with
  | Ret r => f r
  | Throw e => Throw e
  | Get k => Get (fun s => bind (k s) f)
  | Put s k => Put s (bind k f)
  | Emit e k => Emit e (bind k f)
  | Moment k => Moment (fun now => bind (k now) f)
  | AwaitProvider c k => AwaitProvider c (fun o => bind (k o) f)
  | AwaitVoid c k => AwaitVoid c (fun o => bind (k o) f)
  | AwaitAppState h k => AwaitAppState h (bind k f)
  end.

Declare Scope task_scope.
Delimit Scope task_scope with task.
Notation "x <- t ;; k" := (bind t (fun x => k))
  (at level 61, t at next level, right associativity) : task_scope.
Notation "t ;; k" := (bind t (fun _ => k))
  (at level 61, right associativity) : task_scope.
Local Open Scope task_scope.

Definition ret {R : Type} (r : R) : Task R := Ret r.
Definition get : Task Store := Get (fun s => Ret s).
Definition put (s : Store) : Task unit := Put s (Ret tt).
Definition emit (e : Event) : Task unit := Emit e (Ret tt).
Definition moment : Task Z := Moment (fun now => Ret now).

(** [await c] outside any [try]: a rejection is thrown on. *)
Definition await_void (c : VoidCall) : Task unit :=
  AwaitVoid c (fun o =>
    match o with Fulfilled _ => Ret tt | Rejected e => Throw e end).

(** [try { x = await c } catch (error) { ... }]: the outcome is handed to
    the code that follows. *)
Definition try_await (c : ProviderCall) : Task (Outcome PermissionResponse) :=
  AwaitProvider c (fun o => Ret o).

Definition await_foreground (h : Handler) : Task unit :=
  AwaitAppState h (Ret tt).

(** ** PermissionSettingsModal/index.tsx *)

Section Source.

Variable host : Host.

Definition FLAG_ACTIVITY_NEW_TASK : Z := 268435456.
Definition FLAG_ACTIVITY_NO_HISTORY : Z := 1073741824.
Definition FLAG_ACTIVITY_EXCLUDE_FROM_RECENTS : Z := 8388608.

(** [openAppSettings()]: neither call is awaited. *)
Definition openAppSettings : Task unit :=
  if is_ios host then
    emit (Linking_openURL "app-settings:")
  else
    emit (IntentLauncher_startActivityAsync
            "ACTION_APPLICATION_DETAILS_SETTINGS"
            (String.append "package:" (android_package host))
            (Z.lor (Z.lor FLAG_ACTIVITY_NEW_TASK FLAG_ACTIVITY_NO_HISTORY)
                   FLAG_ACTIVITY_EXCLUDE_FROM_RECENTS)).

Definition getCameraSteps : list Step :=
  [ {| label := i18n_t "permissions.general.tapGoToSettings"; image := None |} ]
  ++ (if is_android host
      then [ {| label := i18n_t "permissions.general.tapPermissions";
                image := None |} ]
      else [])
  ++ [ {| label := i18n_t "permissions.findCameraSetting";
          image := Some (if is_ios host then "./CameraIos.png"
                         else "./CameraAndroid.png") |};
       {| label := i18n_t "permissions.tapToGreen";
          image := Some (if is_ios host then "./ToggleOnIos.png"
                         else "./ToggleOnAndroid.png") |} ].

Definition getNotificationsSteps : list Step :=
  [ {| label := i18n_t "permissions.general.tapGoToSettings"; image := None |};
    {| label := i18n_t "permissions.tapNotifications";
       image := if is_ios host then Some "./NotificationsIos.png" else None |};
    {| label := i18n_t "permissions.turnOnAllowNotifications";
       image := Some (if is_ios host then "./ToggleOnIos.png"
                      else "./ToggleOnAndroid.png") |} ].

Definition getLocationSteps : list Step :=
  [ {| label := i18n_t "permissions.general.tapGoToSettings"; image := None |} ]
  ++ (if is_android host
      then [ {| label := i18n_t "permissions.general.tapPermissions";
                image := None |} ]
      else [])
  ++ [ {| label := if is_ios host then i18n_t "permissions.tapLocation"
                   else i18n_t "permissions.findLocationSetting";
          image := Some (if is_ios host then "./LocationIos.png"
                         else "./LocationAndroid.png") |};
       {| label := if is_ios host
                   then i18n_t "permissions.tapLocationWhileUsingTheApp"
                   else i18n_t "permissions.tapToGreen";
          image := Some (if is_ios host then "./LocationOnIos.png"
                         else "./ToggleOnAndroid.png") |} ].

(** [steps.map(step => step.image).filter(Boolean)] *)
Fixpoint images (steps : list Step) : list string :=
  match steps with
  | [] => []
  | st :: rest =>
      match image st with
      | Some img => img :: images rest
      | None => images rest
      end
  end.

(** [handleAppStateChange], closed over [settingsOpenedAt]; [now] is the
    [moment()] it takes when it is called, and
    [moment().diff(settingsOpenedAt, 'milliseconds')] the difference of the
    two timestamps. *)
Definition handleAppStateChange (settingsOpenedAt : Z) : Handler :=
  fun nextAppState now =>
    match nextAppState with
    | active =>
        let millisSinceSettingsOpened := now - settingsOpenedAt in
        if 1000 <? millisSinceSettingsOpened
        then [removeEventListener; resolve_undefined]
        else []
    | _ => []
    end.

(** The [steps] that [openPermissionSettings] picks by [type], and the
    [<PermissionSettingsModal/>] it opens with them.  The [else throw] of
    the source is for a [type] outside [PermissionType]. *)
Definition settings_steps (t : PermissionType) : list Step :=
  match t with
  | camera => getCameraSteps
  | location => getLocationSteps
  | notifications => getNotificationsSteps
  end.

Definition settings_modal (t : PermissionType) (message : string)
  : ModalContent :=
  PermissionSettingsModal
    (match t with
     | camera => i18n_t "permissions.title.camera"
     | notifications => i18n_t "permissions.title.notifications"
     | location => i18n_t "permissions.title.location"
     end)
    message (settings_steps t).

(** [openPermissionSettings(modal, type, message)] *)
Definition openPermissionSettings (t : PermissionType) (message : string)
  : Task unit :=
  emit (called_openPermissionSettings t message);;
  let steps := settings_steps t in
  await_void (Asset_loadAsync_all (images steps));;
  await_void (modal_open (settings_modal t message));;
  settingsOpenedAt <- moment;;
  openAppSettings;;
  await_foreground (handleAppStateChange settingsOpenedAt);;
  emit returned_openPermissionSettings.

(** ** hooks/usePermission *)

(** The provider methods [ask] and [check] are bound to, by [type]. *)
Definition provider_ask (t : PermissionType) : ProviderCall :=
  match t with
  | camera => BarCodeScanner_requestPermissionsAsync
  | location => Permissions_askAsync LOCATION
  | notifications => Permissions_askAsync NOTIFICATIONS
  end.

Definition provider_check (t : PermissionType) : ProviderCall :=
  match t with
  | camera => BarCodeScanner_getPermissionsAsync
  | location => Permissions_getAsync LOCATION
  | notifications => Permissions_getAsync NOTIFICATIONS
  end.

(** [setState]: writes the ref when the state changes, and then calls
    [forceUpdate] unless [noRender] is set. *)
Definition setState (nextState : PermissionState) : Task unit :=
  s <- get;;
  if negb (PermissionState_eqb (savedState s) nextState) then
    put (set_savedState s nextState);;
    s' <- get;;
    if negb (opt_noRender (savedInputs s')) then emit forceUpdate
    else ret tt
  else ret tt.

Definition setStateAndResolve (nextState : PermissionState) : Task unit :=
  setState nextState;;
  emit (resolve nextState).

(** The [BasicModal] shown when the setting was not enabled. *)
Definition settingFailureModal (t : PermissionType) : ModalContent :=
  BasicModal
    (match t with
     | camera => i18n_t "permissions.settingFailure.title.camera"
     | notifications => i18n_t "permissions.settingFailure.title.notifications"
     | location => i18n_t "permissions.settingFailure.title.location"
     end)
    (match t with
     | camera => i18n_t "permissions.settingFailure.message.camera"
     | notifications =>
         i18n_t "permissions.settingFailure.message.notifications"
     | location => i18n_t "permissions.settingFailure.message.location"
     end)
    (i18n_t "generic.okay").

(** [maybeRequestPermission] is cut at its two provider calls.
    [after_ask checkResponse askOutcome] is its code from the [await ask()]
    on: the [catch] of that [try], and the branches on
    [askResponse.status]. *)
Definition after_ask (checkResponse : PermissionResponse)
  (askOutcome : Outcome PermissionResponse) : Task unit :=
  match askOutcome with
  | Rejected error =>
      s <- get;;
      emit (captureSentry error
              "usePermission.requestPermission.askMethod"
              (type (savedInputs s)) (extras_check checkResponse));;
      setStateAndResolve UnexpectedError
  | Fulfilled askResponse =>
      if PermissionStatus_eqb (status askResponse) GRANTED then
        setStateAndResolve Granted
      else if PermissionStatus_eqb (status askResponse) DENIED then
        (if negb (canAskAgain checkResponse) then
           s <- get;;
           await_void
             (modal_open (settingFailureModal (type (savedInputs s))))
         else ret tt);;
        setStateAndResolve Denied
      else if PermissionStatus_eqb (status askResponse) UNDETERMINED then
        s <- get;;
        emit (captureSentry
                "Got undetermined after permission request."
                "usePermission.requestPermission.askMethod"
                (type (savedInputs s))
                (extras_ask_check askResponse checkResponse));;
        setStateAndResolve UnexpectedError
      else
        s <- get;;
        emit (captureSentry
                "Unhandled permission status returned."
                "usePermission.requestPermission"
                (type (savedInputs s))
                (extras_ask_check askResponse checkResponse));;
        setStateAndResolve UnexpectedError
  end.

(** [after_check ask checkOutcome]: the code from the [await check()] on,
    up to the [await ask()]. *)
Definition after_check (ask : ProviderCall)
  (checkOutcome : Outcome PermissionResponse) : Task unit :=
  match checkOutcome with
  | Rejected error =>
      s <- get;;
      emit (captureSentry error
              "usePermission.requestPermission.checkMethod"
              (type (savedInputs s)) no_extras);;
      setStateAndResolve UnexpectedError
  | Fulfilled checkResponse =>
      if PermissionStatus_eqb (status checkResponse) GRANTED then
        setStateAndResolve Granted
      else
        (if negb (canAskAgain checkResponse) then
           s <- get;;
           openPermissionSettings (type (savedInputs s))
                                  (getReason (savedInputs s))
         else ret tt);;
        askOutcome <- try_await ask;;
        after_ask checkResponse askOutcome
  end.

(** [maybeRequestPermission], the [request] of the API object: the two
    lines before [new Promise] and then the executor, which runs at once up
    to its first [await].  [resolve v] settles the promise that [request]
    returned. *)
Definition maybeRequestPermission : Task unit :=
  s0 <- get;;
  let isAutoRequest := savedIsAutoRequest s0 in
  put (set_savedIsAutoRequest s0 false);;
  s <- get;;
  let ask := provider_ask (type (savedInputs s)) in
  let check := provider_check (type (savedInputs s)) in
  let prevState := savedState s in
  if PermissionState_eqb prevState Granted then
    emit (captureSentry
            "Permission has already been granted, will not request again."
            "usePermission.maybeRequestPermission"
            (type (savedInputs s)) (extras_state prevState));;
    emit (resolve prevState)
  else if PermissionState_eqb prevState Requesting && negb isAutoRequest then
    emit (captureSentry
            "Cannot request permission while it is in the process of requesting."
            "usePermission.maybeRequestPermission"
            (type (savedInputs s)) (extras_state prevState));;
    emit (resolve prevState)
  else
    setState Requesting;;
    checkOutcome <- try_await check;;
    after_check ask checkOutcome.

(** [usePermission]: the refs as the first render creates them, what a
    later render does to them, the mount effect, and the API object a
    render returns ([request] is [maybeRequestPermission]). *)
Definition usePermission_first_render (inputs : Inputs) : Store :=
  {| savedInputs := inputs;
     savedState := if opt_autoRequest inputs then Requesting
                   else NotYetRequested;
     savedIsAutoRequest := false |}.

Definition usePermission_render (inputs : Inputs) (s : Store) : Store :=
  set_savedInputs s inputs.

Definition requestOnMount (inputs : Inputs) : Task unit :=
  if opt_autoRequest inputs then
    s <- get;;
    put (set_savedIsAutoRequest s true);;
    maybeRequestPermission
  else ret tt.

Record Api : Type := {
  state : option PermissionState       (* [None] is [undefined] *)
}.

Definition usePermission_api (inputs : Inputs) (s : Store) : Api :=
  if opt_noRender inputs then {| state := None |}
  else {| state := Some (savedState s) |}.

End Source.

(** ** The components *)

(** What a component renders, without its styles.  The [key] of a [View]
    is the [key] it has as an element of a list; [onPress] is what a
    button calls.  [BarCodeScanner] stands for the scanning surface with
    its children. *)
Inductive Press : Type :=
| modal_confirm           (* [goToSettings], which calls [modal.confirm()] *)
| permission_request.     (* [props.permission.request] *)

#[warning="-register-all"] Inductive Element : Type :=
| View (key : option string) (children : list Element)
| StyleText (children : list Element)
| Text (content : string)
| Image (source : string)
| Button (label : string) (onPress : Press)
| Spinner
| BarCodeScanner.

Section Components.

(** [numeral(n).format()] is left to the library. *)
Variable numeral_format : nat -> string.

(** [props.steps.map((step, ix) => ...)], from the index [ix] on: the
    number, the image when the step has one, and the label, after a space
    when there is an image. *)
Fixpoint step_views (ix : nat) (steps : list Step) : list Element :=
  match steps with
  | [] => []
  | step :: rest =>
      View (Some (label step))
        ([Text (String.append (numeral_format (ix + 1)) ". ")]
         ++ match image step with
            | Some img => [Image img]
            | None => []
            end
         ++ [Text (String.append
                     (match image step with Some _ => " " | None => "" end)
                     (label step))])
      :: step_views (S ix) rest
  end.

(** The component [PermissionSettingsModal(props)]. *)
Definition PermissionSettingsModal_render (title message : string)
  (steps : list Step) : Element :=
  View None
    [View None
       [Text title;
        Text message;
        StyleText (step_views 0 steps);
        View None
          [Button (i18n_t "permissions.general.goToSettings")
                  modal_confirm]]].

End Components.

(** *** ScannerView *)

(** The inputs that [ScannerView] hands to [usePermission]. *)
Definition ScannerView_inputs : Inputs :=
  {| type := camera;
     getReason := i18n_t "scan.cameraPermissionReason";
     options := Some {| autoRequest := Some true; noRender := None |} |}.

(** The object literal of [NotYetGrantedView], indexed by
    [props.permission.state]: it has an entry for four of the states, and
    none for [Granted] or for an undefined state. *)
Definition NotYetGrantedView_message (st : option PermissionState)
  : option string :=
  match st with
  | Some NotYetRequested => Some (i18n_t "scan.permission.notYetRequest")
  | Some UnexpectedError => Some (i18n_t "scan.permission.unexpectedError")
  | Some Denied => Some (i18n_t "scan.errors.denied.message")
  | Some Requesting => Some (i18n_t "scan.permission.loading")
  | Some Granted => None
  | None => None
  end.

(** [NotYetGrantedView(props)]; an undefined message renders as nothing. *)
Definition NotYetGrantedView (permission : Api) : Element :=
  View None
    [Text (match NotYetGrantedView_message (state permission) with
           | Some message => message
           | None => EmptyString
           end);
     match state permission with
     | Some Requesting => Spinner
     | _ => Button (i18n_t "scan.grantButton") permission_request
     end].

(** [ScannerView(props)], rendered with the refs [s] of its hook. *)
Definition ScannerView (s : Store) : Element :=
  let permission := usePermission_api ScannerView_inputs s in
  match state permission with
  | Some Granted => View None [BarCodeScanner]
  | _ => NotYetGrantedView permission
  end.

(** ** Semantics *)

(** Where a call stops after running as far as it can without waiting. *)
Inductive Halt : Type :=
| Returned
| Threw (e : Error)
| OnProvider (c : ProviderCall) (k : Outcome PermissionResponse -> Task unit)
| OnVoid (c : VoidCall) (k : Outcome unit -> Task unit)
| OnAppState (h : Handler) (k : Task unit).

(** [advance t now s]: the synchronous part of [t] from the refs [s], with
    the clock at [now]: the refs it leaves, what it did, and where it
    stopped. *)
Fixpoint advance (t : Task unit) (now : Z) (s : Store)
  : Store * list Event * Halt :=
  match t with
  | Ret _ => (s, [], Returned)
  | Throw e => (s, [], Threw e)
  | Get k => advance (k s) now s
  | Put s' k => advance k now s'
  | Emit e k =>
      let '(s1, evs, h) := advance k now s in (s1, e :: evs, h)
  | Moment k => advance (k now) now s
  | AwaitProvider c k => (s, [invoked_provider c], OnProvider c k)
  | AwaitVoid c k => (s, [invoked_void c], OnVoid c k)
  | AwaitAppState h k => (s, [AppState_addEventListener], OnAppState h k)
  end.

Definition HandlerEffect_eqb (a b : HandlerEffect) : bool :=
  match a, b with
  | removeEventListener, removeEventListener
  | resolve_undefined, resolve_undefined => true
  | _, _ => false
  end.

Definition does (e : HandlerEffect) (effects : list HandlerEffect) : bool :=
  existsb (HandlerEffect_eqb e) effects.

(** *** One call against an environment *)

(** The environment of one call: when and how each awaited promise
    settles.  The ['change'] events of [AppState], with their times, are
    handed to [run] beside it. *)
Record Env : Type := {
  provider : ProviderCall -> Z * Outcome PermissionResponse;
  void : VoidCall -> Z * Outcome unit
}.

(** The listener [h] over the events: what it did, and, when it resolved
    its promise, at what time and with which events left.  A listener that
    removes itself is not called again. *)
Fixpoint listen (h : Handler) (changes : list (Z * AppStateStatus))
  : list Event * option (Z * list (Z * AppStateStatus)) :=
  match changes with
  | [] => ([], None)
  | (at_, next) :: rest =>
      let effects := h next at_ in
      let out := if does removeEventListener effects
                 then [AppState_removeEventListener] else [] in
      if does resolve_undefined effects then (out, Some (at_, rest))
      else if does removeEventListener effects then (out, None)
      else listen h rest
  end.

(** How a call driven against an environment ends: it returned (at which
    time, with which ['change'] events still to come), it threw, or it is
    left at an await that is never resumed. *)
Inductive Ending (R : Type) : Type :=
| Finished (r : R) (now : Z) (changes : list (Z * AppStateStatus))
| Failed (e : Error)
| Waiting.
Arguments Finished {R} r now changes.
Arguments Failed {R} e.
Arguments Waiting {R}.

(** [run t env changes now s]: the call [t] driven as far as it goes: the
    refs it leaves, everything it did, and how it ended. *)
Fixpoint run {R : Type} (t : Task R) (env : Env)
  (changes : list (Z * AppStateStatus)) (now : Z) (s : Store)
  : Store * list Event * Ending R :=
  match t with
  | Ret r => (s, [], Finished r now changes)
  | Throw e => (s, [], Failed e)
  | Get k => run (k s) env changes now s
  | Put s' k => run k env changes now s'
  | Emit e k =>
      let '(s1, tr, end_) := run k env changes now s in (s1, e :: tr, end_)
  | Moment k => run (k now) env changes now s
  | AwaitProvider c k =>
      let '(s1, tr, end_) := run (k (snd (provider env c))) env changes
                                 (fst (provider env c)) s in
      (s1, invoked_provider c :: tr, end_)
  | AwaitVoid c k =>
      let '(s1, tr, end_) := run (k (snd (void env c))) env changes
                                 (fst (void env c)) s in
      (s1, invoked_void c :: tr, end_)
  | AwaitAppState h k =>
      match listen h changes with
      | (out, Some (at_, rest)) =>
          let '(s1, tr, end_) := run k env rest at_ s in
          (s1, AppState_addEventListener :: out ++ tr, end_)
      | (out, None) => (s, AppState_addEventListener :: out, Waiting)
      end
  end.

(** *** The event loop of a mounted hook *)

(** A call of [request] that is waiting. *)
Inductive Suspended : Type :=
| WaitProvider (c : ProviderCall) (k : Outcome PermissionResponse -> Task unit)
| WaitVoid (c : VoidCall) (k : Outcome unit -> Task unit)
| WaitForeground (k : Task unit).

(** The refs, the calls of [request] in flight (numbered in the order they
    were made), the listeners on [AppState] (each with the call that added
    it), and the number of calls made so far. *)
Record World : Type := {
  store : Store;
  pending : list (nat * Suspended);
  listeners : list (nat * Handler);
  calls : nat
}.

Inductive Answer : Type :=
| provider_settled (o : Outcome PermissionResponse)
| void_settled (o : Outcome unit).

(** What the event loop runs next. *)
Inductive Input : Type :=
| render (inputs : Inputs)              (* the component renders again *)
| request                               (* [api.request()] is called *)
| settled (call : nat) (a : Answer)     (* the promise a call awaits settles *)
| appStateChange (next : AppStateStatus).

Fixpoint lookup {A : Type} (i : nat) (l : list (nat * A)) : option A :=
  match l with
  | [] => None
  | (j, a) :: rest => if Nat.eqb i j then Some a else lookup i rest
  end.

Definition drop {A : Type} (i : nat) (l : list (nat * A)) : list (nat * A) :=
  filter (fun p => negb (Nat.eqb i (fst p))) l.

Definition park (i : nat) (h : Halt) (l : list (nat * Suspended))
  : list (nat * Suspended) :=
  match h with
  | Returned => l
  | Threw _ => l
  | OnProvider c k => (i, WaitProvider c k) :: l
  | OnVoid c k => (i, WaitVoid c k) :: l
  | OnAppState _ k => (i, WaitForeground k) :: l
  end.

Definition subscribe (i : nat) (h : Halt) (l : list (nat * Handler))
  : list (nat * Handler) :=
  match h with
  | OnAppState f _ => (i, f) :: l
  | _ => l
  end.

(** Call [i] runs [t] until it returns or waits again. *)
Definition resume (w : World) (now : Z) (i : nat) (t : Task unit)
  : World * list (nat * Event) :=
  let '(s, evs, h) := advance t now (store w) in
  ({| store := s;
      pending := park i h (drop i (pending w));
      listeners := subscribe i h (listeners w);
      calls := calls w |},
   map (pair i) evs).

(** The promise that call [i] awaits settles with [a]; an answer nobody
    waits for is dropped. *)
Definition settle (w : World) (now : Z) (i : nat) (a : Answer)
  : World * list (nat * Event) :=
  match lookup i (pending w), a with
  | Some (WaitProvider _ k), provider_settled o => resume w now i (k o)
  | Some (WaitVoid _ k), void_settled o => resume w now i (k o)
  | _, _ => (w, [])
  end.

(** The listener's promise of call [i] was resolved. *)
Definition foreground (w : World) (now : Z) (i : nat)
  : World * list (nat * Event) :=
  match lookup i (pending w) with
  | Some (WaitForeground k) => resume w now i k
  | _ => (w, [])
  end.

(** The calls whose listener resolved its promise go on, in turn. *)
Definition foreground_all (now : Z) (resolved : list nat)
  (start : World * list (nat * Event)) : World * list (nat * Event) :=
  fold_left
    (fun acc i =>
       let '(w1, evs1) := foreground (fst acc) now i in
       (w1, snd acc ++ evs1))
    resolved start.

(** A ['change'] event of [AppState]: every listener is called; those
    that removed themselves are gone afterwards, and the calls whose
    promise was resolved go on. *)
Definition dispatch (w : World) (now : Z) (next : AppStateStatus)
  : World * list (nat * Event) :=
  let fired := map (fun l => (fst l, snd l next now)) (listeners w) in
  let kept :=
    filter (fun l => negb (does removeEventListener (snd l next now)))
           (listeners w) in
  let removed :=
    flat_map (fun f => if does removeEventListener (snd f)
                       then [(fst f, AppState_removeEventListener)] else [])
             fired in
  let resolved :=
    map fst (filter (fun f => does resolve_undefined (snd f)) fired) in
  foreground_all now resolved
    ({| store := store w; pending := pending w; listeners := kept;
        calls := calls w |}, removed).

Section EventLoop.

Variable host : Host.

Definition step (w : World) (now : Z) (i : Input)
  : World * list (nat * Event) :=
  match i with
  | render inputs =>
      ({| store := usePermission_render inputs (store w);
          pending := pending w; listeners := listeners w;
          calls := calls w |}, [])
  | request =>
      resume {| store := store w; pending := pending w;
                listeners := listeners w; calls := S (calls w) |}
             now (calls w) (maybeRequestPermission host)
  | settled i a => settle w now i a
  | appStateChange next => dispatch w now next
  end.

(** The hook mounts: first render, then the mount effect. *)
Definition mount (inputs : Inputs) (now : Z) : World * list (nat * Event) :=
  let w0 := {| store := usePermission_first_render inputs; pending := [];
               listeners := []; calls := 0 |} in
  if opt_autoRequest inputs then
    resume {| store := store w0; pending := []; listeners := [];
              calls := 1 |} now 0%nat (requestOnMount host inputs)
  else (w0, []).

Fixpoint exec (w : World) (inputs : list (Z * Input))
  : World * list (nat * Event) :=
  match inputs with
  | [] => (w, [])
  | (now, i) :: rest =>
      let '(w1, evs1) := step w now i in
      let '(w2, evs2) := exec w1 rest in
      (w2, evs1 ++ evs2)
  end.

End EventLoop.

(** ** What is observed of a call *)

(** [check] is bound to the two [get...] methods, [ask] to the others. *)
Definition is_check (c : ProviderCall) : bool :=
  match c with
  | BarCodeScanner_getPermissionsAsync | Permissions_getAsync _ => true
  | _ => false
  end.

Definition is_ask (c : ProviderCall) : bool :=
  match c with
  | BarCodeScanner_requestPermissionsAsync | Permissions_askAsync _ => true
  | _ => false
  end.

Definition invokes_provider (e : Event) : bool :=
  match e with invoked_provider _ => true | _ => false end.

Definition invokes_ask (e : Event) : bool :=
  match e with invoked_provider c => is_ask c | _ => false end.

Definition enters_settings_flow (e : Event) : bool :=
  match e with called_openPermissionSettings _ _ => true | _ => false end.

(** The one-shot dialog is the [BasicModal] handed to [modal.open]. *)
Definition shows_dialog (e : Event) : bool :=
  match e with
  | invoked_void (modal_open (BasicModal _ _ _)) => true
  | _ => false
  end.

Definition reports (e : Event) : bool :=
  match e with captureSentry _ _ _ _ => true | _ => false end.

Definition rerenders (e : Event) : bool :=
  match e with forceUpdate => true | _ => false end.

Definition count (p : Event -> bool) (tr : list Event) : nat :=
  List.length (filter p tr).

(** The values [request()]'s promise was resolved with, in order. *)
Fixpoint resolutions (tr : list Event) : list PermissionState :=
  match tr with
  | [] => []
  | resolve v :: rest => v :: resolutions rest
  | _ :: rest => resolutions rest
  end.

Definition refs_of {R : Type} (x : Store * list Event * Ending R) : Store :=
  fst (fst x).

Definition trace_of {R : Type} (x : Store * list Event * Ending R)
  : list Event := snd (fst x).

Definition ending_of {R : Type} (x : Store * list Event * Ending R)
  : Ending R := snd x.

(** The first ['change'] to [active] that comes more than 1000 ms after
    [opened]: its time, and the events after it. *)
Fixpoint foregrounded (opened : Z) (changes : list (Z * AppStateStatus))
  : option (Z * list (Z * AppStateStatus)) :=
  match changes with
  | [] => None
  | (at_, active) :: rest =>
      if 1000 <? at_ - opened then Some (at_, rest)
      else foregrounded opened rest
  | _ :: rest => foregrounded opened rest
  end.

(** [openAppSettings] makes one call, which depends on the platform. *)
Definition settings_screen (host : Host) : Event :=
  if is_ios host then Linking_openURL "app-settings:"
  else IntentLauncher_startActivityAsync
         "ACTION_APPLICATION_DETAILS_SETTINGS"
         (String.append "package:" (android_package host))
         1350565888.

(** What [openPermissionSettings] does up to its wait for the app to come
    back. *)
Definition settings_flow_opening (host : Host) (t : PermissionType)
  (message : string) : list Event :=
  [ called_openPermissionSettings t message;
    invoked_void (Asset_loadAsync_all (images (settings_steps host t)));
    invoked_void (modal_open (settings_modal host t message));
    settings_screen host;
    AppState_addEventListener ].

(** What [setState nextState] leaves in the refs, and what it does. *)
Definition set_state (s : Store) (nextState : PermissionState) : Store :=
  if PermissionState_eqb (savedState s) nextState then s
  else set_savedState s nextState.

Definition rerender (s : Store) (nextState : PermissionState) : list Event :=
  if PermissionState_eqb (savedState s) nextState then []
  else if opt_noRender (savedInputs s) then [] else [forceUpdate].

(** A call that ends in [setStateAndResolve v], after doing [before]. *)
Definition settled_with (s : Store) (v : PermissionState)
  (before : list Event) (now : Z) (changes : list (Z * AppStateStatus))
  : Store * list Event * Ending unit :=
  (set_state s v, before ++ rerender s v ++ [resolve v],
   Finished tt now changes).

Definition prepend {R : Type} (before : list Event)
  (x : Store * list Event * Ending R) : Store * list Event * Ending R :=
  (refs_of x, before ++ trace_of x, ending_of x).

(** The guard of the last branch of [maybeRequestPermission]: the call
    goes on to the provider unless the state is [Granted], or [Requesting]
    outside the automatic request. *)
Definition acquiring (s : Store) : bool :=
  negb (PermissionState_eqb (savedState s) Granted)
  && negb (PermissionState_eqb (savedState s) Requesting
           && negb (savedIsAutoRequest s)).

(** A predicate on events that only a call of the provider or of the
    Settings Redirect Flow can satisfy. *)
Definition about_calls (p : Event -> bool) : Prop :=
  p forceUpdate = false /\
  (forall v, p (resolve v) = false) /\
  (forall what origin t extras,
     p (captureSentry what origin t extras) = false) /\
  (forall c, p (invoked_void c) = false).

(** *** More observations *)

Definition invokes_check (e : Event) : bool :=
  match e with invoked_provider c => is_check c | _ => false end.

(** The methods of the provider that a call invoked, in order. *)
Fixpoint provider_calls (tr : list Event) : list ProviderCall :=
  match tr with
  | [] => []
  | invoked_provider c :: rest => c :: provider_calls rest
  | _ :: rest => provider_calls rest
  end.

(** Any [modal.open] or asset load. *)
Definition awaits_void (e : Event) : bool :=
  match e with invoked_void _ => true | _ => false end.

Definition opens_settings_screen (e : Event) : bool :=
  match e with
  | Linking_openURL _ | IntentLauncher_startActivityAsync _ _ _ => true
  | _ => false
  end.

Definition adds_listener (e : Event) : bool :=
  match e with AppState_addEventListener => true | _ => false end.

Definition removes_listener (e : Event) : bool :=
  match e with AppState_removeEventListener => true | _ => false end.

(** The children of a [View], and the images that an element displays. *)
Definition children_of (e : Element) : list Element :=
  match e with
  | View _ children => children
  | StyleText children => children
  | _ => []
  end.

Fixpoint pictures (e : Element) : list string :=
  match e with
  | View _ children => flat_map pictures children
  | StyleText children => flat_map pictures children
  | Image source => [source]
  | _ => []
  end.

(** [suffix] ends [text]. *)
Fixpoint ends_with (suffix text : string) : bool :=
  String.eqb suffix text
  || match text with
     | EmptyString => false
     | String _ rest => ends_with suffix rest
     end.

(** ** Invariants of suspended calls *)

Section Respects.

(** [I] is what the refs satisfy whenever a call waits, [T] what they
    satisfy when a call has thrown, [P] what every event satisfies. *)
Variables (I T : Store -> Prop) (P : Event -> Prop).

(** [respects F t s]: run from the refs [s], and resumed after each await
    with refs that satisfy [I], the call [t] keeps to [I], [T] and [P], and
    returns with a value and refs that satisfy [F]. *)
Fixpoint respects {R : Type} (F : R -> Store -> Prop) (t : Task R)
  (s : Store) : Prop :=
  match t with
  | Ret r => F r s
  | Throw _ => T s
  | Get k => respects F (k s) s
  | Put s' k => respects F k s'
  | Emit e k => P e /\ respects F k s
  | Moment k => forall now, respects F (k now) s
  | AwaitProvider c k =>
      P (invoked_provider c) /\ I s /\
      forall o s', I s' -> respects F (k o) s'
  | AwaitVoid c k =>
      P (invoked_void c) /\ I s /\
      forall o s', I s' -> respects F (k o) s'
  | AwaitAppState _ k =>
      P AppState_addEventListener /\ I s /\
      forall s', I s' -> respects F k s'
  end.

(** The same of a call that waits, for whatever it is resumed with. *)
Definition respects_suspended (F : unit -> Store -> Prop) (b : Suspended)
  : Prop :=
  match b with
  | WaitProvider _ k => forall o s', I s' -> respects F (k o) s'
  | WaitVoid _ k => forall o s', I s' -> respects F (k o) s'
  | WaitForeground k => forall s', I s' -> respects F k s'
  end.

(** What [respects] promises about the synchronous part of a call. *)
Definition kept (F : unit -> Store -> Prop) (x : Store * list Event * Halt)
  : Prop :=
  Forall P (snd (fst x)) /\
  match snd x with
  | Returned => F tt (fst (fst x))
  | Threw _ => T (fst (fst x))
  | OnProvider c k =>
      I (fst (fst x)) /\ forall o s', I s' -> respects F (k o) s'
  | OnVoid c k =>
      I (fst (fst x)) /\ forall o s', I s' -> respects F (k o) s'
  | OnAppState _ k =>
      I (fst (fst x)) /\ forall s', I s' -> respects F k s'
  end.

(** Every call in flight respects the invariant. *)
Definition sound (F : unit -> Store -> Prop) (w : World) : Prop :=
  Forall (fun p => respects_suspended F (snd p)) (pending w).

End Respects.

(** The condition [T] on the refs as the condition on how a call returns. *)
Definition finally (T : Store -> Prop) (_ : unit) (s : Store) : Prop := T s.


Definition anything (_ : Event) : Prop := True.

(** While a call waits, the state is [Requesting] and the flag of the
    automatic request is down; when a call is over the flag is down. *)
Definition calm (s : Store) : Prop :=
  savedState s = Requesting /\ savedIsAutoRequest s = false.

Definition lowered (s : Store) : Prop := savedIsAutoRequest s = false.


Definition with_listeners (w : World) (l : list (nat * Handler)) : World :=
  {| store := store w; pending := pending w; listeners := l;
     calls := calls w |}.



(** At most one call is in flight, and while it is the state is
    [Requesting]. *)
Definition exclusive (w : World) : Prop :=
  lowered (store w) /\
  sound calm lowered anything (finally lowered) w /\
  (pending w = [] \/
   exists i b, pending w = [(i, b)] /\ (i < calls w)%nat /\
               savedState (store w) = Requesting).


(** ** One call in the event loop *)

(** The ['change'] events that the listener [h] is called with: up to the
    one at which it resolves its promise or removes itself. *)
Fixpoint heard (h : Handler) (changes : list (Z * AppStateStatus))
  : list (Z * AppStateStatus) :=
  match changes with
  | [] => []
  | (at_, next) :: rest =>
      if does resolve_undefined (h next at_)
         || does removeEventListener (h next at_)
      then [(at_, next)]
      else (at_, next) :: heard h rest
  end.

(** What the event loop is fed when call [i] runs [t] alone in the
    environment [env]: the settlements of its promises and the ['change']
    events its listener hears, in the order of [run]. *)
Fixpoint schedule_of (i : nat) (t : Task unit) (env : Env)
  (changes : list (Z * AppStateStatus)) (now : Z) (s : Store)
  : list (Z * Input) :=
  match t with
  | Ret _ => []
  | Throw _ => []
  | Get k => schedule_of i (k s) env changes now s
  | Put s' k => schedule_of i k env changes now s'
  | Emit _ k => schedule_of i k env changes now s
  | Moment k => schedule_of i (k now) env changes now s
  | AwaitProvider c k =>
      (fst (provider env c), settled i (provider_settled (snd (provider env c))))
      :: schedule_of i (k (snd (provider env c))) env changes
           (fst (provider env c)) s
  | AwaitVoid c k =>
      (fst (void env c), settled i (void_settled (snd (void env c))))
      :: schedule_of i (k (snd (void env c))) env changes (fst (void env c)) s
  | AwaitAppState h k =>
      map (fun c => (fst c, appStateChange (snd c))) (heard h changes)
      ++ match listen h changes with
         | (_, Some (at_, rest)) => schedule_of i k env rest at_ s
         | (_, None) => []
         end
  end.

(** Every listener of [t] removes itself when it resolves its promise. *)
Fixpoint tidy {R : Type} (t : Task R) : Prop :=
  match t with
  | Ret _ => True
  | Throw _ => True
  | Get k => forall s, tidy (k s)
  | Put _ k => tidy k
  | Emit _ k => tidy k
  | Moment k => forall now, tidy (k now)
  | AwaitProvider _ k => forall o, tidy (k o)
  | AwaitVoid _ k => forall o, tidy (k o)
  | AwaitAppState h k =>
      (forall next now,
         does resolve_undefined (h next now) = true ->
         does removeEventListener (h next now) = true) /\
      tidy k
  end.

(** ** A mounted hook between calls *)

(** What a stretch of the event loop did, without the numbers of the
    calls. *)
Definition trace_in (x : World * list (nat * Event)) : list Event :=
  map snd (snd x).

Definition is_request (i : Z * Input) : bool :=
  match snd i with request => true | _ => false end.

Definition requests_in (schedule : list (Z * Input)) : nat :=
  List.length (filter is_request schedule).

(** No call is in flight, and the state [st] is one in which a call of
    [request] short-circuits. *)
Definition idle (st : PermissionState) (w : World) : Prop :=
  pending w = [] /\ savedState (store w) = st /\ acquiring (store w) = false.

(** The state that the branches of [maybeRequestPermission] on the
    answers of [check()] and [ask()] lead to. *)
Definition verdict (check ask : Outcome PermissionResponse)
  : PermissionState :=
  match check with
  | Rejected _ => UnexpectedError
  | Fulfilled rc =>
      match status rc with
      | GRANTED => Granted
      | _ =>
          match ask with
          | Rejected _ => UnexpectedError
          | Fulfilled ra =>
              match status ra with
              | GRANTED => Granted
              | DENIED => Denied
              | _ => UnexpectedError
              end
          end
      end
  end.

(** ** Changes of the state and [forceUpdate] *)

(** [told s0 seen s]: a synchronous stretch of a call began at the refs
    [s0] and is at [s], and [seen] says whether it has called
    [forceUpdate]; the inputs are as they were, and if the state differs
    and the inputs do not set [noRender] then [forceUpdate] was called. *)
Definition told (s0 : Store) (seen : bool) (s : Store) : Prop :=
  savedInputs s = savedInputs s0 /\
  (savedState s <> savedState s0 ->
   opt_noRender (savedInputs s0) = false -> seen = true).

(** [announces F t s0 seen s]: the stretch of [t] under way, and each
    stretch that begins when [t] is resumed, stops at refs that are
    [told]; [F] is what holds when [t] returns. *)
Fixpoint announces {R : Type} (F : R -> Store -> bool -> Store -> Prop)
  (t : Task R) (s0 : Store) (seen : bool) (s : Store) : Prop :=
  match t with
  | Ret r => F r s0 seen s
  | Throw _ => told s0 seen s
  | Get k => announces F (k s) s0 seen s
  | Put s' k => announces F k s0 seen s'
  | Emit e k => announces F k s0 (seen || rerenders e) s
  | Moment k => forall now, announces F (k now) s0 seen s
  | AwaitProvider _ k =>
      told s0 seen s /\ forall o s', announces F (k o) s' false s'
  | AwaitVoid _ k =>
      told s0 seen s /\ forall o s', announces F (k o) s' false s'
  | AwaitAppState _ k =>
      told s0 seen s /\ forall s', announces F k s' false s'
  end.

Definition finally_told (_ : unit) (s0 : Store) (seen : bool) (s : Store)
  : Prop := told s0 seen s.

Definition announces_suspended (b : Suspended) : Prop :=
  match b with
  | WaitProvider _ k => forall o s', announces finally_told (k o) s' false s'
  | WaitVoid _ k => forall o s', announces finally_told (k o) s' false s'
  | WaitForeground k => forall s', announces finally_told k s' false s'
  end.

Definition announced (w : World) : Prop :=
  Forall (fun p => announces_suspended (snd p)) (pending w).

(** ** The listeners of a mounted hook *)

(** A listener that removes itself when it resolves its promise. *)
Definition tidy_handler (h : Handler) : Prop :=
  forall next now,
    does resolve_undefined (h next now) = true ->
    does removeEventListener (h next now) = true.

Definition tidy_suspended (b : Suspended) : Prop :=
  match b with
  | WaitProvider _ k => forall o, tidy (k o)
  | WaitVoid _ k => forall o, tidy (k o)
  | WaitForeground k => tidy k
  end.

(** The listeners are those of the calls that wait for the app to come
    back: there is none, or there is one, of the one call in flight. *)
Definition moored (w : World) : Prop :=
  Forall (fun p => tidy_suspended (snd p)) (pending w) /\
  (listeners w = [] \/
   exists i h k,
     listeners w = [(i, h)] /\ pending w = [(i, WaitForeground k)] /\
     tidy_handler h).

(** ** Scenarios *)

Definition android_phone : Host :=
  {| OS := android; android_package := "com.example.app" |}.

Definition inputs_for (t : PermissionType) (o : option Options) : Inputs :=
  {| type := t; getReason := "To scan QR codes:"; options := o |}.

Definition with_state (t : PermissionType) (st : PermissionState) : Store :=
  {| savedInputs := inputs_for t None; savedState := st;
     savedIsAutoRequest := false |}.

Definition response (st : PermissionStatus) (again : bool)
  : Outcome PermissionResponse :=
  Fulfilled {| status := st; canAskAgain := again |}.

(** The provider answers [check] and [ask] at time 10 with the given
    outcomes; assets load and dialogs are confirmed at time 20. *)
Definition answering (check ask : Outcome PermissionResponse) : Env :=
  {| provider := fun c => (10, if is_check c then check else ask);
     void := fun _ => (20, Fulfilled tt) |}.

(** The app comes back twice: a blip 20 ms after the settings were
    opened, and the user 4980 ms after. *)
Definition back_from_settings : list (Z * AppStateStatus) :=
  [(30, background); (40, active); (45, background); (5000, active);
   (6000, background)].


(** The provider answers [DENIED] to [check()] and to [ask()], with
    [canAskAgain = false]; the dialog of the Settings Redirect Flow is
    confirmed, and the dialog that follows the denial is rejected. *)
Definition rejecting_dialog : Env :=
  {| provider := fun _ => (10, response DENIED false);
     void := fun c => (20, match c with
                           | modal_open (BasicModal _ _ _) =>
                               Rejected "E_DIALOG"
                           | _ => Fulfilled tt
                           end) |}.

(** The provider says that it cannot ask again, and the images of the
    instructions fail to load. *)
Definition failing_assets : Env :=
  {| provider := fun _ => (10, response DENIED false);
     void := fun c => (20, match c with
                           | Asset_loadAsync_all _ => Rejected "E_ASSET"
                           | modal_open _ => Fulfilled tt
                           end) |}.

(** ** Tactics *)

(** [simpl] that stops at the named pieces of the source. *)
Ltac step_run :=
  with_strategy opaque
    [setState setStateAndResolve openPermissionSettings after_ask after_check]
    simpl.

(** * Properties *)

(** ** The semantics *)

(** Sequencing: [run] of [t ;; f] is [run] of [t] and then, when [t]
    returned, of [f] from where [t] stopped. *)
Lemma run_bind {A B : Type} (t : Task A) (f : A -> Task B) env changes now s :
  run (bind t f) env changes now s =
  let '(s1, tr1, e1) := run t env changes now s in
  match e1 with
  | Finished r now1 rest =>
      let '(s2, tr2, e2) := run (f r) env rest now1 s1 in
      (s2, tr1 ++ tr2, e2)
  | Failed e => (s1, tr1, Failed e)
  | Waiting => (s1, tr1, Waiting)
  end.
Proof.
  revert changes now s.
  induction t as [r | e | k IH | s' k IH | e k IH | k IH | c k IH | c k IH
                 | h k IH]; intros changes now s; simpl.
  - destruct (run (f r) env changes now s) as [[s2 tr2] e2]; reflexivity.
  - reflexivity.
  - apply IH.
  - apply IH.
  - rewrite IH.
    destruct (run k env changes now s) as [[s1 tr1] [r now1 rest | err |]];
      try reflexivity.
    destruct (run (f r) env rest now1 s1) as [[s2 tr2] e2]; reflexivity.
  - apply IH.
  - rewrite IH.
    destruct (run (k (snd (provider env c))) env changes
                  (fst (provider env c)) s)
      as [[s1 tr1] [r now1 rest | err |]]; try reflexivity.
    destruct (run (f r) env rest now1 s1) as [[s2 tr2] e2]; reflexivity.
  - rewrite IH.
    destruct (run (k (snd (void env c))) env changes (fst (void env c)) s)
      as [[s1 tr1] [r now1 rest | err |]]; try reflexivity.
    destruct (run (f r) env rest now1 s1) as [[s2 tr2] e2]; reflexivity.
  - destruct (listen h changes) as [out [[at_ rest] |]]; try reflexivity.
    rewrite IH.
    destruct (run k env rest at_ s) as [[s1 tr1] [r now1 rest1 | err |]];
      try reflexivity.
    destruct (run (f r) env rest1 now1 s1) as [[s2 tr2] e2].
    rewrite app_comm_cons, app_assoc. reflexivity.
Qed.

(** [run] is [advance] repeated: the synchronous part, then the answer of
    the environment, then the rest. *)
Lemma run_advance (t : Task unit) env changes now s :
  run t env changes now s =
  let '(s1, evs, h) := advance t now s in
  match h with
  | Returned => (s1, evs, Finished tt now changes)
  | Threw e => (s1, evs, Failed e)
  | OnProvider c k =>
      let '(s2, tr, e) := run (k (snd (provider env c))) env changes
                              (fst (provider env c)) s1 in
      (s2, evs ++ tr, e)
  | OnVoid c k =>
      let '(s2, tr, e) := run (k (snd (void env c))) env changes
                              (fst (void env c)) s1 in
      (s2, evs ++ tr, e)
  | OnAppState f k =>
      match listen f changes with
      | (out, Some (at_, rest)) =>
          let '(s2, tr, e) := run k env rest at_ s1 in
          (s2, evs ++ out ++ tr, e)
      | (out, None) => (s1, evs ++ out, Waiting)
      end
  end.
Proof.
  revert now s.
  induction t as [[] | e | k IH | s' k IH | e k IH | k IH | c k IH | c k IH
                 | f k IH]; intros now s; simpl; try reflexivity;
    try apply IH.
  rewrite IH.
  destruct (advance k now s) as [[s1 evs] [| err | c k' | c k' | f k']];
    try reflexivity.
  - destruct (run (k' (snd (provider env c))) env changes
                  (fst (provider env c)) s1) as [[s2 tr] e2]; reflexivity.
  - destruct (run (k' (snd (void env c))) env changes
                  (fst (void env c)) s1) as [[s2 tr] e2]; reflexivity.
  - destruct (listen f changes) as [out [[at_ rest] |]]; try reflexivity.
    destruct (run k' env rest at_ s1) as [[s2 tr] e2]; reflexivity.
Qed.

(** ** Counting events *)

Lemma count_app p l1 l2 : count p (l1 ++ l2) = (count p l1 + count p l2)%nat.
Proof. unfold count. rewrite filter_app. apply length_app. Qed.

Lemma count_cons p e l :
  count p (e :: l) = ((if p e then 1 else 0) + count p l)%nat.
Proof. unfold count. simpl. destruct (p e); reflexivity. Qed.

Lemma count_nil p : count p [] = 0%nat.
Proof. reflexivity. Qed.

Lemma resolutions_app l1 l2 :
  resolutions (l1 ++ l2) = resolutions l1 ++ resolutions l2.
Proof.
  induction l1 as [| e l1 IH]; simpl; try reflexivity.
  destruct e; simpl; rewrite IH; reflexivity.
Qed.

(** An event that satisfies [p] is not in a trace that counts none. *)
Lemma count_zero_no_occurrence p tr before e after :
  count p tr = 0%nat -> tr = before ++ e :: after -> p e = true -> False.
Proof.
  intros H -> Hp. rewrite count_app, count_cons, Hp in H. lia.
Qed.

(** Where [p] holds of one event only, that event has one place. *)
Lemma only_occurrence p l1 x l2 before e after :
  count p l1 = 0%nat -> count p l2 = 0%nat ->
  l1 ++ x :: l2 = before ++ e :: after -> p e = true ->
  before = l1.
Proof.
  revert before.
  induction l1 as [| a l1 IH]; intros before H1 H2 Heq Hp.
  - destruct before as [| b before]; try reflexivity.
    simpl in Heq. inversion Heq; subst.
    exfalso. eapply (count_zero_no_occurrence p (before ++ e :: after));
      eauto.
  - rewrite count_cons in H1.
    destruct before as [| b before]; simpl in Heq; inversion Heq; subst.
    + rewrite Hp in H1. lia.
    + f_equal. apply IH; auto. destruct (p b); simpl in H1; lia.
Qed.

(** ** The listener of the Settings Redirect Flow *)

Lemma handleAppStateChange_resolves opened next now :
  does resolve_undefined (handleAppStateChange opened next now) = true <->
  next = active /\ 1000 < now - opened.
Proof.
  unfold handleAppStateChange.
  destruct next; simpl; try (split; [discriminate | intros [H _]; discriminate]).
  destruct (1000 <? now - opened) eqn:E; simpl.
  - apply Z.ltb_lt in E. split; auto.
  - apply Z.ltb_ge in E. split; [discriminate | intros [_ H]; lia].
Qed.

Lemma handleAppStateChange_removes opened next now :
  does removeEventListener (handleAppStateChange opened next now) =
  does resolve_undefined (handleAppStateChange opened next now).
Proof.
  unfold handleAppStateChange.
  destruct next; simpl; try reflexivity.
  destruct (1000 <? now - opened); reflexivity.
Qed.

Lemma listen_handleAppStateChange opened changes :
  listen (handleAppStateChange opened) changes =
  (match foregrounded opened changes with
   | Some _ => [AppState_removeEventListener]
   | None => []
   end, foregrounded opened changes).
Proof.
  induction changes as [| [at_ next] rest IH]; simpl; try reflexivity.
  destruct next; simpl; try exact IH.
  destruct (1000 <? at_ - opened); simpl; [reflexivity | exact IH].
Qed.

Lemma foregrounded_never opened changes :
  (forall at_, In (at_, active) changes -> at_ - opened <= 1000) ->
  foregrounded opened changes = None.
Proof.
  induction changes as [| [at_ next] rest IH]; simpl; intros H;
    try reflexivity.
  destruct next; try (apply IH; intros; apply H; auto).
  destruct (1000 <? at_ - opened) eqn:E.
  - apply Z.ltb_lt in E. specialize (H at_ (or_introl eq_refl)). lia.
  - apply IH; intros; apply H; auto.
Qed.

Lemma foregrounded_first opened early at_ later :
  (forall at', In (at', active) early -> at' - opened <= 1000) ->
  1000 < at_ - opened ->
  foregrounded opened (early ++ (at_, active) :: later) = Some (at_, later).
Proof.
  intros Hearly Hlate.
  induction early as [| [at' next] rest IH]; simpl.
  - apply Z.ltb_lt in Hlate. rewrite Hlate. reflexivity.
  - destruct next; try (apply IH; intros; apply Hearly; simpl; auto).
    destruct (1000 <? at' - opened) eqn:E.
    + apply Z.ltb_lt in E.
      specialize (Hearly at' (or_introl eq_refl)). lia.
    + apply IH; intros; apply Hearly; simpl; auto.
Qed.

Lemma openAppSettings_emits host :
  openAppSettings host = emit (settings_screen host).
Proof.
  unfold openAppSettings, settings_screen.
  destruct (is_ios host); reflexivity.
Qed.

(** The whole of [openPermissionSettings] against an environment. *)
Lemma run_openPermissionSettings host t message env changes now s :
  run (openPermissionSettings host t message) env changes now s =
  match snd (void env (Asset_loadAsync_all (images (settings_steps host t))))
  with
  | Rejected e => (s, firstn 2 (settings_flow_opening host t message), Failed e)
  | Fulfilled _ =>
      match void env (modal_open (settings_modal host t message)) with
      | (_, Rejected e) =>
          (s, firstn 3 (settings_flow_opening host t message), Failed e)
      | (opened, Fulfilled _) =>
          match foregrounded opened changes with
          | None => (s, settings_flow_opening host t message, Waiting)
          | Some (at_, rest) =>
              (s, settings_flow_opening host t message
                  ++ [AppState_removeEventListener;
                      returned_openPermissionSettings],
               Finished tt at_ rest)
          end
      end
  end.
Proof.
  unfold openPermissionSettings. rewrite openAppSettings_emits. simpl.
  destruct (snd (void env (Asset_loadAsync_all
                             (images (settings_steps host t)))));
    simpl; try reflexivity.
  destruct (void env (modal_open (settings_modal host t message)))
    as [opened [[] | e]]; simpl; try reflexivity.
  rewrite listen_handleAppStateChange.
  destruct (foregrounded opened changes) as [[at_ rest] |]; reflexivity.
Qed.

(** The flow never writes the refs of the hook. *)
Lemma openPermissionSettings_keeps_refs host t message env changes now s :
  refs_of (run (openPermissionSettings host t message) env changes now s) = s.
Proof.
  rewrite run_openPermissionSettings.
  destruct (snd (void env (Asset_loadAsync_all
                             (images (settings_steps host t)))));
    try reflexivity.
  destruct (void env (modal_open (settings_modal host t message)))
    as [opened [[] | e]]; try reflexivity.
  destruct (foregrounded opened changes) as [[at_ rest] |]; reflexivity.
Qed.

(** The flow calls the provider at no point. *)
Lemma settings_flow_makes_no_provider_call p host t message env changes now s :
  (forall e, invokes_provider e = false -> p e = false) ->
  count p (trace_of (run (openPermissionSettings host t message)
                         env changes now s)) = 0%nat.
Proof.
  intros Hp. rewrite run_openPermissionSettings.
  destruct (snd (void env (Asset_loadAsync_all _))) as [[] | e1];
    try destruct (void env (modal_open (settings_modal _ _ _)))
      as [opened [[] | e2]];
    try destruct (foregrounded opened changes) as [[at_ rest] |];
    unfold trace_of, settings_flow_opening, settings_screen;
    destruct (is_ios host); simpl;
    rewrite ?count_app, ?count_cons, ?count_nil, ?Hp by reflexivity;
    reflexivity.
Qed.

Lemma settings_flow_entered_once host t message env changes now s :
  count enters_settings_flow
    (trace_of (run (openPermissionSettings host t message)
                   env changes now s)) = 1%nat.
Proof.
  rewrite run_openPermissionSettings.
  destruct (snd (void env (Asset_loadAsync_all _))) as [[] | e1];
    try destruct (void env (modal_open (settings_modal _ _ _)))
      as [opened [[] | e2]];
    try destruct (foregrounded opened changes) as [[at_ rest] |];
    unfold trace_of, settings_flow_opening, settings_screen;
    destruct (is_ios host); reflexivity.
Qed.

(** A flow that returned has said so. *)
Lemma settings_flow_finished host t message env changes now s s' tr r at_ rest :
  run (openPermissionSettings host t message) env changes now s
  = (s', tr, Finished r at_ rest) ->
  In returned_openPermissionSettings tr.
Proof.
  rewrite run_openPermissionSettings.
  destruct (snd (void env (Asset_loadAsync_all _))) as [[] | e1];
    try destruct (void env (modal_open (settings_modal _ _ _)))
      as [opened [[] | e2]];
    try destruct (foregrounded opened changes) as [[at' rest'] |];
    try discriminate.
  intros H. inversion H; subst. simpl. auto 10.
Qed.

(** In the event loop: the listener of a flow that waits is called at
    every ['change']; it stays until it resolves, and then it is gone from
    the listeners and the call goes on. *)
Lemma settings_listener_dispatch w i k opened now next :
  listeners w = [(i, handleAppStateChange opened)] ->
  lookup i (pending w) = Some (WaitForeground k) ->
  dispatch w now next =
  if does resolve_undefined (handleAppStateChange opened next now) then
    let '(w', evs) := resume (with_listeners w []) now i k in
    (w', (i, AppState_removeEventListener) :: evs)
  else (with_listeners w (listeners w), []).
Proof.
  intros Hl Hp. unfold dispatch. rewrite Hl. simpl.
  rewrite handleAppStateChange_removes.
  destruct (does resolve_undefined (handleAppStateChange opened next now));
    simpl; try reflexivity.
  unfold foreground_all, foreground. simpl. rewrite Hp.
  change {| store := store w; pending := pending w; listeners := [];
            calls := calls w |} with (with_listeners w []).
  destruct (resume (with_listeners w []) now i k) as [w' evs].
  reflexivity.
Qed.

(** C8.  [openPermissionSettings], once its assets are loaded and its
    dialog is confirmed at time [opened] (when it takes [settingsOpenedAt]
    and opens the settings screen), returns only at a change to [active]
    that comes more than 1000 ms after [opened]: while there is none it
    keeps waiting with its listener attached; changes to [active] within
    the 1000 ms do nothing; at the first later one it removes the listener
    and returns, and the changes after that one are not seen. *)
Theorem settings_flow_waits_for_late_foreground
  host t message env changes now s opened :
  snd (void env (Asset_loadAsync_all (images (settings_steps host t))))
    = Fulfilled tt ->
  void env (modal_open (settings_modal host t message))
    = (opened, Fulfilled tt) ->
  let r := run (openPermissionSettings host t message) env changes now s in
  ((forall at_, In (at_, active) changes -> at_ - opened <= 1000) ->
   r = (s, settings_flow_opening host t message, Waiting)) /\
  (forall early at_ later,
     changes = early ++ (at_, active) :: later ->
     (forall at', In (at', active) early -> at' - opened <= 1000) ->
     1000 < at_ - opened ->
     r = (s, settings_flow_opening host t message
             ++ [AppState_removeEventListener;
                 returned_openPermissionSettings],
          Finished tt at_ later)).
Proof.
  intros Hassets Hmodal r. subst r.
  rewrite run_openPermissionSettings, Hassets, Hmodal.
  split.
  - intros Hnever. rewrite (foregrounded_never _ _ Hnever). reflexivity.
  - intros early at_ later -> Hearly Hlate.
    rewrite (foregrounded_first _ _ _ _ Hearly Hlate). reflexivity.
Qed.

Lemma settings_flow_waits_for_late_foreground_witness :
  let env := answering (response DENIED false) (response DENIED false) in
  let s := with_state location Requesting in
  snd (void env (Asset_loadAsync_all
                   (images (settings_steps android_phone location))))
    = Fulfilled tt /\
  void env (modal_open (settings_modal android_phone location
                          "To scan QR codes:"))
    = (20, Fulfilled tt) /\
  run (openPermissionSettings android_phone location "To scan QR codes:")
      env back_from_settings 10 s
  = (s, settings_flow_opening android_phone location "To scan QR codes:"
        ++ [AppState_removeEventListener; returned_openPermissionSettings],
     Finished tt 5000 [(6000, background)]).
Proof.
  intros env s.
  split; [reflexivity | split; [reflexivity |]].
  refine (proj2 (settings_flow_waits_for_late_foreground
                   android_phone location "To scan QR codes:" env
                   back_from_settings 10 s 20 eq_refl eq_refl)
                [(30, background); (40, active); (45, background)]
                5000 [(6000, background)] eq_refl _ _).
  - intros at' [H | [H | [H | []]]]; inversion H; lia.
  - lia.
Defined.

(** ** What a call of [request] does, piece by piece *)

(** The closed forms of [run] on [setState], [setStateAndResolve],
    [after_ask], [after_check] and [maybeRequestPermission], each in terms
    of the one before. *)
Lemma run_setState v env changes now s :
  run (setState v) env changes now s =
  (set_state s v, rerender s v, Finished tt now changes).
Proof.
  unfold setState, set_state, rerender. simpl.
  destruct (PermissionState_eqb (savedState s) v); simpl; try reflexivity.
  destruct (opt_noRender (savedInputs s)); reflexivity.
Qed.

Lemma run_setStateAndResolve v env changes now s :
  run (setStateAndResolve v) env changes now s =
  settled_with s v [] now changes.
Proof.
  unfold setStateAndResolve. rewrite run_bind, run_setState. reflexivity.
Qed.

Lemma run_after_ask rc o env changes now s :
  run (after_ask rc o) env changes now s =
  match o with
  | Rejected e =>
      settled_with s UnexpectedError
        [captureSentry e "usePermission.requestPermission.askMethod"
           (type (savedInputs s)) (extras_check rc)] now changes
  | Fulfilled ra =>
      match status ra with
      | GRANTED => settled_with s Granted [] now changes
      | DENIED =>
          if canAskAgain rc then settled_with s Denied [] now changes
          else
            let dialog :=
              modal_open (settingFailureModal (type (savedInputs s))) in
            match snd (void env dialog) with
            | Fulfilled _ =>
                settled_with s Denied [invoked_void dialog]
                  (fst (void env dialog)) changes
            | Rejected e => (s, [invoked_void dialog], Failed e)
            end
      | UNDETERMINED =>
          settled_with s UnexpectedError
            [captureSentry "Got undetermined after permission request."
               "usePermission.requestPermission.askMethod"
               (type (savedInputs s)) (extras_ask_check ra rc)] now changes
      | UNHANDLED =>
          settled_with s UnexpectedError
            [captureSentry "Unhandled permission status returned."
               "usePermission.requestPermission"
               (type (savedInputs s)) (extras_ask_check ra rc)] now changes
      end
  end.
Proof.
  unfold after_ask.
  destruct o as [ra | e]; [destruct (status ra) |]; step_run;
    rewrite ?run_setStateAndResolve; try reflexivity.
  destruct (canAskAgain rc); step_run; rewrite ?run_setStateAndResolve;
    try reflexivity.
  match goal with
  | |- context [snd (void env ?c)] => destruct (snd (void env c)) as [[] | e]
  end; step_run; rewrite ?run_setStateAndResolve; reflexivity.
Qed.

Lemma run_after_check host ask o env changes now s :
  run (after_check host ask o) env changes now s =
  match o with
  | Rejected e =>
      settled_with s UnexpectedError
        [captureSentry e "usePermission.requestPermission.checkMethod"
           (type (savedInputs s)) no_extras] now changes
  | Fulfilled rc =>
      if PermissionStatus_eqb (status rc) GRANTED
      then settled_with s Granted [] now changes
      else
        let asking before at_ rest :=
          prepend (before ++ [invoked_provider ask])
            (run (after_ask rc (snd (provider env ask))) env rest
               (fst (provider env ask)) s) in
        if canAskAgain rc then asking [] now changes
        else
          match run (openPermissionSettings host (type (savedInputs s))
                       (getReason (savedInputs s))) env changes now s with
          | (_, flow, Finished _ at_ rest) => asking flow at_ rest
          | (_, flow, Failed e) => (s, flow, Failed e)
          | (_, flow, Waiting) => (s, flow, Waiting)
          end
  end.
Proof.
  unfold after_check.
  destruct o as [rc | e]; step_run; rewrite ?run_setStateAndResolve;
    try reflexivity.
  destruct (PermissionStatus_eqb (status rc) GRANTED); step_run;
    rewrite ?run_setStateAndResolve; try reflexivity.
  rewrite run_bind.
  destruct (canAskAgain rc); step_run.
  - destruct (run (after_ask rc (snd (provider env ask))) env changes
                  (fst (provider env ask)) s) as [[s2 tr] e2].
    reflexivity.
  - pose proof (openPermissionSettings_keeps_refs host (type (savedInputs s))
                  (getReason (savedInputs s)) env changes now s) as Hkeep.
    destruct (run (openPermissionSettings host (type (savedInputs s))
                     (getReason (savedInputs s))) env changes now s)
      as [[s1 flow] [[] at_ rest | e |]]; unfold refs_of in Hkeep;
      simpl in Hkeep; subst s1; try reflexivity.
    step_run.
    destruct (run (after_ask rc (snd (provider env ask))) env rest
                  (fst (provider env ask)) s) as [[s2 tr] e2].
    unfold prepend, refs_of, trace_of, ending_of. step_run.
    rewrite <- app_assoc. reflexivity.
Qed.

Lemma run_maybeRequestPermission host env changes now s :
  run (maybeRequestPermission host) env changes now s =
  let s0 := set_savedIsAutoRequest s false in
  let check := provider_check (type (savedInputs s)) in
  let ask := provider_ask (type (savedInputs s)) in
  if acquiring s then
    prepend (rerender s0 Requesting ++ [invoked_provider check])
      (run (after_check host ask (snd (provider env check))) env changes
         (fst (provider env check)) (set_state s0 Requesting))
  else
    (s0,
     [captureSentry
        (if PermissionState_eqb (savedState s) Granted
         then "Permission has already been granted, will not request again."
         else "Cannot request permission while it is in the process of requesting.")
        "usePermission.maybeRequestPermission"
        (type (savedInputs s)) (extras_state (savedState s));
      resolve (savedState s)],
     Finished tt now changes).
Proof.
  unfold maybeRequestPermission, acquiring.
  destruct s as [inputs st auto]. step_run.
  destruct st, auto; step_run; try reflexivity.
  all: rewrite run_bind, run_setState; step_run.
  all: match goal with
       | |- context [run ?t ?e ?c ?n ?x] =>
           destruct (run t e c n x) as [[s2 tr] e2]
       end.
  all: unfold prepend, refs_of, trace_of, ending_of; step_run.
  all: rewrite <- ?app_assoc; try reflexivity.
Qed.

(** The synchronous part of a call of [request]. *)
Lemma advance_maybeRequestPermission host now s :
  advance (maybeRequestPermission host) now s =
  let s0 := set_savedIsAutoRequest s false in
  let check := provider_check (type (savedInputs s)) in
  let ask := provider_ask (type (savedInputs s)) in
  if acquiring s then
    (set_state s0 Requesting,
     rerender s0 Requesting ++ [invoked_provider check],
     OnProvider check (after_check host ask))
  else
    (s0,
     [captureSentry
        (if PermissionState_eqb (savedState s) Granted
         then "Permission has already been granted, will not request again."
         else "Cannot request permission while it is in the process of requesting.")
        "usePermission.maybeRequestPermission"
        (type (savedInputs s)) (extras_state (savedState s));
      resolve (savedState s)],
     Returned).
Proof.
  unfold maybeRequestPermission, acquiring, set_state, rerender.
  destruct s as [inputs st auto]. simpl.
  destruct st, auto; step_run; try reflexivity.
  all: unfold setState; simpl; destruct (opt_noRender inputs); reflexivity.
Qed.

(** ** What is left in the refs, and what is seen *)

Lemma count_rerender p s v :
  p forceUpdate = false -> count p (rerender s v) = 0%nat.
Proof.
  intros Hp. unfold rerender.
  destruct (PermissionState_eqb (savedState s) v); try reflexivity.
  destruct (opt_noRender (savedInputs s)); try reflexivity.
  rewrite count_cons, Hp. reflexivity.
Qed.

Lemma resolutions_rerender s v : resolutions (rerender s v) = [].
Proof.
  unfold rerender.
  destruct (PermissionState_eqb (savedState s) v); try reflexivity.
  destruct (opt_noRender (savedInputs s)); reflexivity.
Qed.

Lemma PermissionState_eqb_eq a b : PermissionState_eqb a b = true <-> a = b.
Proof. destruct a, b; simpl; split; congruence. Qed.

Lemma savedState_set_state s v : savedState (set_state s v) = v.
Proof.
  unfold set_state.
  destruct (PermissionState_eqb (savedState s) v) eqn:E; try reflexivity.
  apply PermissionState_eqb_eq. exact E.
Qed.

Lemma savedInputs_set_state s v : savedInputs (set_state s v) = savedInputs s.
Proof.
  unfold set_state.
  destruct (PermissionState_eqb (savedState s) v); reflexivity.
Qed.

Lemma in_rerender e s v : In e (rerender s v) -> e = forceUpdate.
Proof.
  unfold rerender.
  destruct (PermissionState_eqb (savedState s) v); simpl; try tauto.
  destruct (opt_noRender (savedInputs s)); simpl; intuition congruence.
Qed.

(** Only a call that passes the guard invokes the provider. *)
Lemma invoked_provider_acquiring host env changes now s c :
  In (invoked_provider c)
     (trace_of (run (maybeRequestPermission host) env changes now s)) ->
  acquiring s = true.
Proof.
  rewrite run_maybeRequestPermission. simpl.
  destruct (acquiring s); try reflexivity.
  unfold trace_of; simpl. intuition discriminate.
Qed.

(** Counting over the closed forms. *)

Lemma provider_check_not_ask t : is_ask (provider_check t) = false.
Proof. destruct t; reflexivity. Qed.

(** ** Tactics for the closed forms *)

(** Counting over an explicit trace. *)
Ltac observe :=
  unfold settled_with, prepend, trace_of, refs_of, ending_of,
    settings_flow_opening; simpl;
  try match goal with
      | |- context [settings_screen ?h] =>
          unfold settings_screen; destruct (is_ios h); simpl
      end;
  repeat (rewrite ?count_app, ?count_cons, ?count_nil, ?resolutions_app,
            ?resolutions_rerender, ?savedState_set_state,
            ?savedInputs_set_state;
          rewrite ?count_rerender by reflexivity; simpl).

(** [crunch H] unrolls the closed form of the run in [H] along the
    program: what is known of the environment is used, what is not is
    split on. *)
Ltac known H :=
  match goal with
  | E : ?x = _ |- _ =>
      lazymatch x with
      | acquiring _ => idtac
      | snd (provider _ _) => idtac
      | snd (void _ _) => idtac
      | void _ _ => idtac
      | status _ => idtac
      | canAskAgain _ => idtac
      | foregrounded _ _ => idtac
      end;
      match type of H with context [x] => rewrite E in H end
  end.

Ltac split_on H :=
  match type of H with
  | context [match snd (provider ?e ?c) with _ => _ end] =>
      destruct (snd (provider e c)) eqn:?
  | context [match snd (void ?e ?c) with _ => _ end] =>
      destruct (snd (void e c)) as [[] | ?] eqn:?
  | context [match void ?e ?c with _ => _ end] =>
      destruct (void e c) as [? [[] | ?]] eqn:?
  | context [PermissionStatus_eqb (status ?r) _] =>
      destruct (status r) eqn:?
  | context [match status ?r with _ => _ end] =>
      destruct (status r) eqn:?
  | context [if canAskAgain ?r then _ else _] =>
      destruct (canAskAgain r) eqn:?
  | context [match foregrounded ?o ?c with _ => _ end] =>
      destruct (foregrounded o c) as [[? ?] |] eqn:?
  end.

Ltac unroll H :=
  first [ rewrite run_maybeRequestPermission in H
        | rewrite run_after_check in H
        | rewrite run_openPermissionSettings in H
        | rewrite run_after_ask in H ].

Ltac step_run_in H :=
  with_strategy opaque
    [setState setStateAndResolve openPermissionSettings after_ask after_check]
    (simpl in H).

Ltac crunch H :=
  repeat (first [known H | split_on H | unroll H];
          cbv beta iota zeta in H; step_run_in H).

(** Which event of an explicit trace a hypothesis [In e tr] is about. *)
Ltac locate H :=
  unfold settled_with, prepend, trace_of, refs_of, ending_of,
    settings_flow_opening in H;
  simpl in H;
  repeat match goal with
    | H' : _ \/ _ |- _ => destruct H' as [H' | H']
    | H' : In _ (_ ++ _) |- _ => apply in_app_or in H'
    | H' : In _ (_ :: _) |- _ => simpl in H'
    | H' : In _ (rerender _ _) |- _ => apply in_rerender in H'
    | H' : False |- _ => destruct H'
    | H' : In _ [] |- _ => destruct H'
    | H' : settings_screen ?h = _ |- _ =>
        unfold settings_screen in H'; destruct (is_ios h)
    | H' : _ = _ :> Event |- _ => discriminate H'
    | H' : invoked_provider _ = invoked_provider _ |- _ =>
        injection H' as H'; try subst
    end.

Lemma about_calls_ask : about_calls invokes_ask.
Proof. repeat split. Qed.

Lemma about_calls_enter : about_calls enters_settings_flow.
Proof. repeat split. Qed.

(** After [ask()] nothing more is called: neither the provider nor the
    flow. *)
Lemma after_ask_makes_no_call p rc o env changes now s :
  about_calls p ->
  count p (trace_of (run (after_ask rc o) env changes now s)) = 0%nat.
Proof.
  intros (Hf & Hr & Hc & Hv). rewrite run_after_ask.
  destruct o as [ra | e]; [destruct (status ra) |]; simpl;
    try (destruct (canAskAgain rc); simpl);
    try match goal with
      | |- context [snd (void env ?c)] => destruct (snd (void env c)); simpl
      end;
    observe;
    repeat (rewrite ?Hr, ?Hc, ?Hv, ?count_app, ?count_cons, ?count_nil;
            rewrite ?count_rerender by assumption; simpl);
    reflexivity.
Qed.

(** A call whose [check()] says that it cannot ask again: what it does
    before the flow, the flow, and, when the flow returns, [ask()] and the
    rest. *)
Lemma run_through_settings_flow host env changes now s rc :
  let check := provider_check (type (savedInputs s)) in
  let ask := provider_ask (type (savedInputs s)) in
  let s1 := set_state (set_savedIsAutoRequest s false) Requesting in
  let flow := run (openPermissionSettings host (type (savedInputs s))
                     (getReason (savedInputs s)))
                  env changes (fst (provider env check)) s1 in
  acquiring s = true ->
  snd (provider env check) = Fulfilled rc ->
  PermissionStatus_eqb (status rc) GRANTED = false ->
  canAskAgain rc = false ->
  run (maybeRequestPermission host) env changes now s =
  prepend (rerender (set_savedIsAutoRequest s false) Requesting
           ++ [invoked_provider check])
    match flow with
    | (_, tr, Finished _ _ rest) =>
        prepend (tr ++ [invoked_provider ask])
          (run (after_ask rc (snd (provider env ask))) env rest
               (fst (provider env ask)) s1)
    | (_, tr, Failed e) => (s1, tr, Failed e)
    | (_, tr, Waiting) => (s1, tr, Waiting)
    end.
Proof.
  intros check ask s1 flow Hacq Hcheck Hstatus Hcan.
  subst check ask s1 flow.
  rewrite run_maybeRequestPermission. cbv zeta.
  rewrite Hacq, run_after_check, Hcheck, Hstatus, Hcan.
  rewrite !savedInputs_set_state. reflexivity.
Qed.

(** ** The acquisition sequence *)

(** C1.  In a call of [request] that invokes [check()], if [check()]
    returns [GRANTED] then [ask()] is never invoked, the Settings Redirect
    Flow is never entered, the state is left [Granted], and the promise of
    [request] is resolved once, with [Granted]; this for every kind of
    permission. *)
Theorem check_granted_skips_ask host env changes now s rc :
  let check := provider_check (type (savedInputs s)) in
  let r := run (maybeRequestPermission host) env changes now s in
  In (invoked_provider check) (trace_of r) ->
  snd (provider env check) = Fulfilled rc ->
  status rc = GRANTED ->
  count invokes_ask (trace_of r) = 0%nat /\
  count enters_settings_flow (trace_of r) = 0%nat /\
  savedState (refs_of r) = Granted /\
  resolutions (trace_of r) = [Granted] /\
  ending_of r = Finished tt (fst (provider env check)) changes.
Proof.
  intros check r Hin Hc Hg. subst check r.
  apply invoked_provider_acquiring in Hin.
  rewrite run_maybeRequestPermission. cbv zeta. rewrite Hin.
  rewrite run_after_check, Hc, Hg. simpl.
  observe. rewrite ?provider_check_not_ask. auto.
Qed.

Lemma check_granted_skips_ask_witness :
  let env := answering (response GRANTED true) (response DENIED true) in
  let r := run (maybeRequestPermission android_phone) env []
               0 (with_state camera NotYetRequested) in
  In (invoked_provider BarCodeScanner_getPermissionsAsync) (trace_of r) /\
  count invokes_ask (trace_of r) = 0%nat /\
  savedState (refs_of r) = Granted /\
  resolutions (trace_of r) = [Granted].
Proof.
  intros env r.
  assert (Hin : In (invoked_provider BarCodeScanner_getPermissionsAsync)
                   (trace_of r)) by (vm_compute; auto).
  split; [exact Hin |].
  destruct (check_granted_skips_ask android_phone env [] 0
              (with_state camera NotYetRequested)
              {| status := GRANTED; canAskAgain := true |}
              Hin eq_refl eq_refl) as (H1 & _ & H3 & H4 & _).
  auto.
Defined.

(** C2.  In a call of [request] in which [check()] returns [DENIED] with
    [canAskAgain = false], the Settings Redirect Flow is entered exactly
    once; [ask()] is invoked only after the flow has returned; and the
    flow, which runs as one stretch of the call from refs in state
    [Requesting], leaves the refs as it found them. *)
Theorem settings_flow_once_before_ask host env changes now s rc :
  let check := provider_check (type (savedInputs s)) in
  let r := run (maybeRequestPermission host) env changes now s in
  let s1 := set_state (set_savedIsAutoRequest s false) Requesting in
  let flow := run (openPermissionSettings host (type (savedInputs s))
                     (getReason (savedInputs s)))
                  env changes (fst (provider env check)) s1 in
  In (invoked_provider check) (trace_of r) ->
  snd (provider env check) = Fulfilled rc ->
  status rc = DENIED ->
  canAskAgain rc = false ->
  count enters_settings_flow (trace_of r) = 1%nat /\
  (forall before e after,
     trace_of r = before ++ e :: after -> invokes_ask e = true ->
     In returned_openPermissionSettings before) /\
  (exists after,
     trace_of r = (rerender (set_savedIsAutoRequest s false) Requesting
                   ++ [invoked_provider check]) ++ trace_of flow ++ after) /\
  savedState s1 = Requesting /\
  refs_of flow = s1.
Proof.
  intros check r s1 flow Hin Hcheck Hdenied Hcan.
  pose proof (invoked_provider_acquiring _ _ _ _ _ _ Hin) as Hacq.
  clear Hin.
  assert (Hr : r = _)
    by (apply (run_through_settings_flow host env changes now s rc Hacq
                 Hcheck); [rewrite Hdenied; reflexivity | exact Hcan]).
  cbv zeta in Hr. fold check s1 flow in Hr.
  pose proof (settings_flow_makes_no_provider_call invokes_ask host
                (type (savedInputs s)) (getReason (savedInputs s)) env changes
                (fst (provider env check)) s1) as Hnoask.
  pose proof (settings_flow_finished host (type (savedInputs s))
                (getReason (savedInputs s)) env changes
                (fst (provider env check)) s1) as Hdone.
  pose proof (openPermissionSettings_keeps_refs host (type (savedInputs s))
                (getReason (savedInputs s)) env changes
                (fst (provider env check)) s1) as Hkeep.
  pose proof (settings_flow_entered_once host (type (savedInputs s))
                (getReason (savedInputs s)) env changes
                (fst (provider env check)) s1) as Honce.
  fold flow in Hnoask, Hdone, Hkeep, Honce.
  assert (Hnoask' : count invokes_ask (trace_of flow) = 0%nat).
  { apply Hnoask. intros [] H; try reflexivity; discriminate. }
  clear Hnoask. rename Hnoask' into Hnoask.
  pose proof (fun ch n =>
    after_ask_makes_no_call invokes_ask rc
      (snd (provider env (provider_ask (type (savedInputs s))))) env ch n s1
      about_calls_ask) as Htail_ask.
  pose proof (fun ch n =>
    after_ask_makes_no_call enters_settings_flow rc
      (snd (provider env (provider_ask (type (savedInputs s))))) env ch n s1
      about_calls_enter) as Htail_enter.
  clearbody flow r. subst r.
  assert (Hs1 : savedState s1 = Requesting) by apply savedState_set_state.
  assert (Hc : invokes_ask (invoked_provider check) = false)
    by apply provider_check_not_ask.
  simpl in Hc.
  destruct flow as [[sf ftr] [[] at_ rest | e |]];
    unfold prepend, refs_of, trace_of in *; simpl in *; subst sf.
  - specialize (Hdone _ _ _ _ _ eq_refl).
    repeat split; auto.
    + rewrite !count_app, !count_cons, Honce, Htail_enter.
      rewrite count_rerender by reflexivity. reflexivity.
    + intros before e after Heq He.
      rewrite <- (app_assoc ftr), app_assoc in Heq. simpl in Heq.
      apply only_occurrence with (p := invokes_ask) in Heq; auto.
      * subst before. apply in_or_app. auto.
      * rewrite !count_app, !count_cons, Hnoask.
        rewrite count_rerender by reflexivity. simpl. rewrite Hc.
        reflexivity.
    + eexists. rewrite <- !app_assoc. reflexivity.
  - repeat split; auto.
    + rewrite !count_app, !count_cons, Honce.
      rewrite count_rerender by reflexivity. reflexivity.
    + intros before e0 after Heq He. exfalso.
      refine (count_zero_no_occurrence invokes_ask _ _ _ _ _ Heq He).
      rewrite !count_app, !count_cons, Hnoask.
      rewrite count_rerender by reflexivity. simpl. rewrite Hc. reflexivity.
    + exists []. rewrite app_nil_r. reflexivity.
  - repeat split; auto.
    + rewrite !count_app, !count_cons, Honce.
      rewrite count_rerender by reflexivity. reflexivity.
    + intros before e0 after Heq He. exfalso.
      refine (count_zero_no_occurrence invokes_ask _ _ _ _ _ Heq He).
      rewrite !count_app, !count_cons, Hnoask.
      rewrite count_rerender by reflexivity. simpl. rewrite Hc. reflexivity.
    + exists []. rewrite app_nil_r. reflexivity.
Qed.

Lemma settings_flow_once_before_ask_witness :
  let env := answering (response DENIED false) (response DENIED false) in
  let r := run (maybeRequestPermission android_phone) env back_from_settings
               0 (with_state location NotYetRequested) in
  In (invoked_provider (Permissions_getAsync LOCATION)) (trace_of r) /\
  count enters_settings_flow (trace_of r) = 1%nat /\
  count invokes_ask (trace_of r) = 1%nat.
Proof.
  intros env r.
  assert (Hin : In (invoked_provider (Permissions_getAsync LOCATION))
                   (trace_of r)) by (vm_compute; auto).
  split; [exact Hin |].
  split; [| reflexivity].
  exact (proj1 (settings_flow_once_before_ask android_phone env
                  back_from_settings 0 (with_state location NotYetRequested)
                  {| status := DENIED; canAskAgain := false |}
                  Hin eq_refl eq_refl eq_refl)).
Defined.

(** C3, as the code has it.  In a call of [request] that invokes [ask()]
    and gets [DENIED]: when the earlier [check()] had
    [canAskAgain = false], the one-shot dialog is shown exactly once, and
    when it had [canAskAgain = true] no dialog is shown; and, the promise
    of the dialog being fulfilled where there is a dialog, the state is
    left [Denied] and the promise of [request] is resolved once, with
    [Denied]. *)
Theorem denied_ask_shows_dialog_once host env changes now s rc ra :
  let check := provider_check (type (savedInputs s)) in
  let ask := provider_ask (type (savedInputs s)) in
  let r := run (maybeRequestPermission host) env changes now s in
  In (invoked_provider ask) (trace_of r) ->
  snd (provider env check) = Fulfilled rc ->
  snd (provider env ask) = Fulfilled ra ->
  status ra = DENIED ->
  count shows_dialog (trace_of r) = (if canAskAgain rc then 0 else 1)%nat /\
  ((canAskAgain rc = false ->
    snd (void env (modal_open (settingFailureModal (type (savedInputs s)))))
    = Fulfilled tt) ->
   savedState (refs_of r) = Denied /\ resolutions (trace_of r) = [Denied]).
Proof.
  intros check ask r Hin Hcheck Hask Hdenied. subst check ask.
  pose proof (invoked_provider_acquiring _ _ _ _ _ _ Hin) as Hacq.
  remember r as r' eqn:Hr. subst r.
  crunch Hr; subst r'; locate Hin.
  all: try (destruct (type (savedInputs s)); discriminate).
  all: observe.
  all: split; [reflexivity | intros Hdialog]; auto.
  all: rewrite ?savedInputs_set_state in *; simpl in *.
  all: specialize (Hdialog eq_refl); congruence.
Qed.

Lemma denied_ask_shows_dialog_once_witness :
  let env := answering (response DENIED false) (response DENIED false) in
  let r := run (maybeRequestPermission android_phone) env back_from_settings
               0 (with_state location NotYetRequested) in
  In (invoked_provider (Permissions_askAsync LOCATION)) (trace_of r) /\
  count shows_dialog (trace_of r) = 1%nat /\
  savedState (refs_of r) = Denied /\
  resolutions (trace_of r) = [Denied].
Proof.
  intros env r.
  assert (Hin : In (invoked_provider (Permissions_askAsync LOCATION))
                   (trace_of r)) by (vm_compute; auto 20).
  split; [exact Hin |].
  destruct (denied_ask_shows_dialog_once android_phone env
              back_from_settings 0 (with_state location NotYetRequested)
              {| status := DENIED; canAskAgain := false |}
              {| status := DENIED; canAskAgain := false |}
              Hin eq_refl eq_refl eq_refl) as [H1 H2].
  split; [exact H1 | exact (H2 (fun _ => eq_refl))].
Defined.

(** C3, as it is stated, fails: the dialog is awaited outside any [try],
    so when its promise is rejected the call throws after [ask()] has
    returned [DENIED]; the state is left [Requesting], not [Denied], and
    the promise of [request] is not resolved. *)
Lemma denied_ask_with_rejected_dialog_stays_requesting :
  let s := with_state location NotYetRequested in
  let r := run (maybeRequestPermission android_phone) rejecting_dialog
               back_from_settings 0 s in
  snd (provider rejecting_dialog (provider_check (type (savedInputs s))))
    = response DENIED false /\
  snd (provider rejecting_dialog (provider_ask (type (savedInputs s))))
    = response DENIED false /\
  In (invoked_provider (provider_ask (type (savedInputs s)))) (trace_of r) /\
  count shows_dialog (trace_of r) = 1%nat /\
  savedState (refs_of r) = Requesting /\
  savedState (refs_of r) <> Denied /\
  resolutions (trace_of r) = [] /\
  resolutions (trace_of r) <> [Denied] /\
  ending_of r = Failed "E_DIALOG".
Proof.
  intros s r.
  split; [reflexivity |]. split; [reflexivity |].
  split; [vm_compute; auto 20 |]. split; [reflexivity |].
  split; [reflexivity |]. split; [vm_compute; discriminate |].
  split; [reflexivity |]. split; [vm_compute; discriminate | reflexivity].
Qed.

(** C4.  In a call of [request] in which a call of the provider, [check()]
    or [ask()], raises, the executor does not throw: the state is left
    [UnexpectedError], the promise of [request] is resolved once, with
    [UnexpectedError], and exactly one report goes to the notification
    sink, which carries the error. *)
Theorem provider_failure_reported_once host env changes now s c e :
  let r := run (maybeRequestPermission host) env changes now s in
  In (invoked_provider c) (trace_of r) ->
  snd (provider env c) = Rejected e ->
  savedState (refs_of r) = UnexpectedError /\
  resolutions (trace_of r) = [UnexpectedError] /\
  count reports (trace_of r) = 1%nat /\
  (exists origin extras,
     In (captureSentry e origin (type (savedInputs s)) extras) (trace_of r)) /\
  exists now' rest, ending_of r = Finished tt now' rest.
Proof.
  intros r Hin Hrej.
  pose proof (invoked_provider_acquiring _ _ _ _ _ _ Hin) as Hacq.
  remember r as r' eqn:Hr. subst r.
  crunch Hr; subst r'; locate Hin; try congruence.
  all: assert (e0 = e) by congruence; subst e0.
  all: observe.
  all: repeat split; eauto.
  all: do 2 eexists; rewrite ?in_app_iff; simpl; auto 20.
Qed.

Lemma provider_failure_reported_once_witness :
  let env := answering (response DENIED true) (Rejected "E_ASK") in
  let r := run (maybeRequestPermission android_phone) env []
               0 (with_state notifications Denied) in
  In (invoked_provider (Permissions_askAsync NOTIFICATIONS)) (trace_of r) /\
  savedState (refs_of r) = UnexpectedError /\
  resolutions (trace_of r) = [UnexpectedError] /\
  count reports (trace_of r) = 1%nat.
Proof.
  intros env r.
  assert (Hin : In (invoked_provider (Permissions_askAsync NOTIFICATIONS))
                   (trace_of r)) by (vm_compute; auto 20).
  split; [exact Hin |].
  destruct (provider_failure_reported_once android_phone env [] 0
              (with_state notifications Denied)
              (Permissions_askAsync NOTIFICATIONS) "E_ASK" Hin eq_refl)
    as (H1 & H2 & H3 & _).
  auto.
Defined.

(** C5.  A call of [request] while the state is [Granted] leaves the state
    [Granted] (and the inputs as they were), invokes neither [check()] nor
    [ask()], and resolves its promise at once, with [Granted]. *)
Theorem request_while_granted host env changes now s :
  savedState s = Granted ->
  let r := run (maybeRequestPermission host) env changes now s in
  savedState (refs_of r) = Granted /\
  savedInputs (refs_of r) = savedInputs s /\
  count invokes_provider (trace_of r) = 0%nat /\
  resolutions (trace_of r) = [Granted] /\
  ending_of r = Finished tt now changes.
Proof.
  intros Hs r. subst r. rewrite run_maybeRequestPermission.
  unfold acquiring. rewrite Hs. simpl. repeat split.
  all: unfold refs_of, trace_of; simpl; rewrite ?Hs; auto.
Qed.

Lemma request_while_granted_witness :
  let env := answering (response DENIED true) (response DENIED true) in
  let r := run (maybeRequestPermission android_phone) env []
               0 (with_state camera Granted) in
  savedState (with_state camera Granted) = Granted /\
  savedState (refs_of r) = Granted /\
  count invokes_provider (trace_of r) = 0%nat /\
  resolutions (trace_of r) = [Granted].
Proof.
  intros env r. split; [reflexivity |].
  destruct (request_while_granted android_phone env [] 0
              (with_state camera Granted) eq_refl) as (H1 & _ & H3 & H4 & _).
  auto.
Defined.

(** C7, as the code has it.  A call of [request] while the state is
    [UnexpectedError] starts an acquisition sequence: it sets the state to
    [Requesting], invokes [check()], and waits for it with the rest of the
    sequence still to run. *)
Theorem request_after_unexpected_error_acquires host now s :
  savedState s = UnexpectedError ->
  let s0 := set_savedIsAutoRequest s false in
  let check := provider_check (type (savedInputs s)) in
  let ask := provider_ask (type (savedInputs s)) in
  advance (maybeRequestPermission host) now s =
  (set_savedState s0 Requesting,
   (if opt_noRender (savedInputs s) then [] else [forceUpdate])
   ++ [invoked_provider check],
   OnProvider check (after_check host ask)).
Proof.
  intros Hs. rewrite advance_maybeRequestPermission.
  unfold acquiring, set_state, rerender. simpl. rewrite Hs. reflexivity.
Qed.

Lemma request_after_unexpected_error_acquires_witness :
  savedState (with_state camera UnexpectedError) = UnexpectedError /\
  advance (maybeRequestPermission android_phone) 0
          (with_state camera UnexpectedError) =
  (with_state camera Requesting,
   [forceUpdate; invoked_provider BarCodeScanner_getPermissionsAsync],
   OnProvider BarCodeScanner_getPermissionsAsync
     (after_check android_phone BarCodeScanner_requestPermissionsAsync)).
Proof.
  split; [reflexivity |].
  exact (request_after_unexpected_error_acquires android_phone 0
           (with_state camera UnexpectedError) eq_refl).
Defined.

(** C7, as it is stated, fails: from [UnexpectedError] a call of [request]
    does invoke the provider, and with [check()] granted it ends in
    [Granted]. *)
Lemma unexpected_error_is_not_absorbing :
  let env := answering (response GRANTED true) (response GRANTED true) in
  let s := with_state camera UnexpectedError in
  let r := run (maybeRequestPermission android_phone) env [] 0 s in
  savedState s = UnexpectedError /\
  trace_of r = [forceUpdate;
                invoked_provider BarCodeScanner_getPermissionsAsync;
                forceUpdate; resolve Granted] /\
  count invokes_provider (trace_of r) <> 0%nat /\
  savedState (refs_of r) <> UnexpectedError.
Proof.
  intros env s r. repeat split; try reflexivity; discriminate.
Qed.

(** C9.  In a call of [request] that invokes [check()], the Settings
    Redirect Flow is entered, once and with the kind and the reason of the
    inputs, whenever [check()] returns a status other than [GRANTED]
    ([UNDETERMINED] as well as [DENIED]) with [canAskAgain = false]; and it
    is not entered when the status is [GRANTED] or [canAskAgain] is
    [true]. *)
Theorem settings_flow_entered_when_cannot_ask host env changes now s rc :
  let check := provider_check (type (savedInputs s)) in
  let r := run (maybeRequestPermission host) env changes now s in
  In (invoked_provider check) (trace_of r) ->
  snd (provider env check) = Fulfilled rc ->
  (status rc <> GRANTED /\ canAskAgain rc = false ->
   count enters_settings_flow (trace_of r) = 1%nat /\
   In (called_openPermissionSettings (type (savedInputs s))
         (getReason (savedInputs s))) (trace_of r)) /\
  (status rc = GRANTED \/ canAskAgain rc = true ->
   count enters_settings_flow (trace_of r) = 0%nat).
Proof.
  intros check r Hin Hc. subst check r.
  apply invoked_provider_acquiring in Hin.
  rewrite run_maybeRequestPermission. simpl. rewrite Hin.
  rewrite run_after_check, Hc.
  set (s1 := set_state (set_savedIsAutoRequest s false) Requesting).
  assert (Hi : savedInputs s1 = savedInputs s)
    by (unfold s1; rewrite savedInputs_set_state; reflexivity).
  rewrite Hi.
  pose proof (after_ask_makes_no_call enters_settings_flow rc
                (snd (provider env (provider_ask (type (savedInputs s)))))
                env) as Hquiet.
  unfold trace_of in Hquiet.
  split.
  - intros [Hst Hcan]. rewrite Hcan.
    destruct (status rc); try congruence; step_run;
      rewrite run_openPermissionSettings;
      destruct (snd (void env (Asset_loadAsync_all _))) as [[] | e1];
      try destruct (void env (modal_open (settings_modal _ _ _)))
        as [opened [[] | e2]];
      try destruct (foregrounded opened changes) as [[at_ rest] |];
      observe; rewrite ?provider_check_not_ask;
      unfold settings_flow_opening, settings_screen;
      destruct (is_ios host); simpl;
      rewrite ?count_app, ?count_cons; simpl;
      rewrite ?Hquiet by exact about_calls_enter;
      (split; [reflexivity | rewrite ?in_app_iff; simpl; auto 10]).
  - intros [Hst | Hcan].
    + rewrite Hst. simpl. observe. reflexivity.
    + rewrite Hcan. destruct (status rc); simpl; observe;
        rewrite ?Hquiet by exact about_calls_enter; reflexivity.
Qed.

Lemma settings_flow_entered_when_cannot_ask_witness :
  let env := answering (response UNDETERMINED false) (response GRANTED true) in
  let r := run (maybeRequestPermission android_phone) env back_from_settings
               0 (with_state camera NotYetRequested) in
  In (invoked_provider BarCodeScanner_getPermissionsAsync) (trace_of r) /\
  count enters_settings_flow (trace_of r) = 1%nat /\
  In (called_openPermissionSettings camera "To scan QR codes:") (trace_of r).
Proof.
  intros env r.
  assert (Hin : In (invoked_provider BarCodeScanner_getPermissionsAsync)
                   (trace_of r)) by (vm_compute; auto).
  split; [exact Hin |].
  refine (proj1 (settings_flow_entered_when_cannot_ask android_phone env
                   back_from_settings 0 (with_state camera NotYetRequested)
                   {| status := UNDETERMINED; canAskAgain := false |}
                   Hin eq_refl) _).
  split; [discriminate | reflexivity].
Defined.



(** ** Invariants of the calls in flight *)

Section RespectsFacts.

Variables (I T : Store -> Prop) (P : Event -> Prop).

(** [respects] is about the synchronous part of a call first. *)
Lemma advance_respects F t now s :
  respects I T P F t s -> kept I T P F (advance t now s).
Proof.
  revert s.
  induction t as [[] | e | k IH | s' k IH | e k IH | k IH | c k IH | c k IH
                 | f k IH]; intros s H; simpl in *.
  - split; [constructor | exact H].
  - split; [constructor | exact H].
  - apply IH, H.
  - apply IH, H.
  - destruct H as [He Hk]. specialize (IH s Hk).
    destruct (advance k now s) as [[s1 evs] h]. destruct IH as [Hevs Hh].
    split; [constructor; assumption | exact Hh].
  - apply IH, H.
  - destruct H as (Hp & Hi & Hk). split; [repeat constructor; assumption |].
    split; assumption.
  - destruct H as (Hp & Hi & Hk). split; [repeat constructor; assumption |].
    split; assumption.
  - destruct H as (Hp & Hi & Hk). split; [repeat constructor; assumption |].
    split; assumption.
Qed.

Lemma respects_bind {A B : Type} (F : B -> Store -> Prop) (t : Task A)
  (f : A -> Task B) s :
  respects I T P (fun a s' => respects I T P F (f a) s') t s ->
  respects I T P F (bind t f) s.
Proof.
  revert s.
  induction t as [r | e | k IH | s' k IH | e k IH | k IH | c k IH | c k IH
                 | h k IH]; intros s H; simpl in *; auto.
  - destruct H; split; auto.
  - destruct H as (Hp & Hi & Hk); repeat split; auto.
  - destruct H as (Hp & Hi & Hk); repeat split; auto.
  - destruct H as (Hp & Hi & Hk); repeat split; auto.
Qed.

Lemma respects_weaken {A : Type} (F G : A -> Store -> Prop) (t : Task A) s :
  (forall a s', F a s' -> G a s') ->
  respects I T P F t s -> respects I T P G t s.
Proof.
  intros HFG. revert s.
  induction t as [r | e | k IH | s' k IH | e k IH | k IH | c k IH | c k IH
                 | h k IH]; intros s H; simpl in *; auto.
  - destruct H; split; auto.
  - destruct H as (Hp & Hi & Hk); repeat split; auto.
  - destruct H as (Hp & Hi & Hk); repeat split; auto.
  - destruct H as (Hp & Hi & Hk); repeat split; auto.
Qed.

(** *** The calls of [request] keep an invariant of the refs *)

(** [Pre] holds of the refs when [request] is called. *)
Variable Pre : Store -> Prop.

Hypothesis P_other : forall e, rerenders e = false -> P e.
Hypothesis P_rerender :
  forall s, I s -> opt_noRender (savedInputs s) = true \/ P forceUpdate.
Hypothesis T_setState : forall s v, I s -> T (set_savedState s v).
Hypothesis T_waiting : forall s, I s -> T s.
Hypothesis T_short : forall s, Pre s -> T (set_savedIsAutoRequest s false).
Hypothesis I_start :
  forall s, Pre s ->
  I (set_savedState (set_savedIsAutoRequest s false) Requesting).
Hypothesis Pre_rerender :
  forall s, Pre s -> opt_noRender (savedInputs s) = true \/ P forceUpdate.

Lemma setStateAndResolve_respects v s :
  I s -> respects I T P (finally T) (setStateAndResolve v) s.
Proof.
  intros Hi. unfold setStateAndResolve, setState, finally. simpl.
  destruct (PermissionState_eqb (savedState s) v); simpl.
  - split; [apply P_other; reflexivity | apply T_waiting, Hi].
  - destruct (opt_noRender (savedInputs s)) eqn:E; simpl.
    + split; [apply P_other; reflexivity | apply T_setState, Hi].
    + destruct (P_rerender s Hi) as [H | H]; [congruence |].
      repeat split; auto.
Qed.

Lemma after_ask_respects rc o s :
  I s -> respects I T P (finally T) (after_ask rc o) s.
Proof.
  intros Hi. unfold after_ask.
  destruct o as [ra | e]; [destruct (status ra) |]; simpl;
    try (split; [apply P_other; reflexivity |]);
    try (apply setStateAndResolve_respects; assumption).
  destruct (canAskAgain rc); simpl.
  - apply setStateAndResolve_respects; assumption.
  - split; [apply P_other; reflexivity |]. split; [assumption |].
    intros [[] | e] s' Hi'; simpl.
    + apply setStateAndResolve_respects; assumption.
    + apply T_waiting, Hi'.
Qed.

Lemma openPermissionSettings_respects host t message s :
  I s ->
  respects I T P (fun _ s' => I s') (openPermissionSettings host t message) s.
Proof.
  intros Hi. unfold openPermissionSettings.
  rewrite openAppSettings_emits. simpl.
  split; [apply P_other; reflexivity |].
  split; [apply P_other; reflexivity |]. split; [assumption |].
  intros [[] | e] s1 Hi1; simpl; [| apply T_waiting, Hi1].
  split; [apply P_other; reflexivity |]. split; [assumption |].
  intros [[] | e] s2 Hi2; simpl; [| apply T_waiting, Hi2].
  intros now.
  split; [apply P_other; unfold settings_screen;
          destruct (is_ios host); reflexivity |].
  split; [apply P_other; reflexivity |]. split; [assumption |].
  intros s3 Hi3.
  split; [apply P_other; reflexivity | assumption].
Qed.

Lemma after_check_respects host ask o s :
  I s -> respects I T P (finally T) (after_check host ask o) s.
Proof.
  intros Hi. unfold after_check.
  destruct o as [rc | e]; simpl.
  2: { split; [apply P_other; reflexivity |].
       apply setStateAndResolve_respects; assumption. }
  destruct (PermissionStatus_eqb (status rc) GRANTED).
  { apply setStateAndResolve_respects; assumption. }
  apply respects_bind.
  assert (Hask : forall s', I s' ->
            respects I T P (finally T)
              (askOutcome <- try_await ask;; after_ask rc askOutcome) s').
  { intros s' Hi'. simpl.
    split; [apply P_other; reflexivity |]. split; [assumption |].
    intros o s2 Hi2. apply after_ask_respects, Hi2. }
  destruct (canAskAgain rc); step_run.
  - apply Hask, Hi.
  - eapply respects_weaken;
      [| apply openPermissionSettings_respects; exact Hi].
    intros u s' Hi'. apply Hask, Hi'.
Qed.

Lemma maybeRequestPermission_respects host s :
  Pre s -> respects I T P (finally T) (maybeRequestPermission host) s.
Proof.
  intros Hpre. unfold maybeRequestPermission.
  pose proof (T_short s Hpre) as Hshort.
  pose proof (I_start s Hpre) as Hstart.
  pose proof (Pre_rerender s Hpre) as Hrerender.
  destruct s as [inputs st auto]. simpl in *.
  unfold set_savedIsAutoRequest, set_savedState in *; simpl in *.
  assert (Hwait :
    respects I T P (finally T)
      (checkOutcome <- try_await (provider_check (type inputs));;
       after_check host (provider_ask (type inputs)) checkOutcome)
      {| savedInputs := inputs; savedState := Requesting;
         savedIsAutoRequest := false |}).
  { simpl. split; [apply P_other; reflexivity |]. split; [assumption |].
    intros o s' Hi'. apply after_check_respects, Hi'. }
  destruct st, auto; simpl;
    try (repeat split; try (apply P_other; reflexivity); exact Hshort);
    try exact Hwait.
  all: destruct (opt_noRender inputs); simpl; try exact Hwait.
  all: destruct Hrerender as [H | H]; [discriminate |].
  all: split; [exact H | exact Hwait].
Qed.

End RespectsFacts.

(** *** In the event loop *)

Section WorldFacts.

Variables (I T : Store -> Prop) (P : Event -> Prop).
Lemma lookup_in {A : Type} i (l : list (nat * A)) a :
  lookup i l = Some a -> In (i, a) l.
Proof.
  induction l as [| [j b] l IH]; simpl; try discriminate.
  destruct (Nat.eqb i j) eqn:E.
  - apply Nat.eqb_eq in E. intros H. inversion H; subst. auto.
  - auto.
Qed.

Lemma sound_lookup w i b :
  sound I T P (finally T) w -> lookup i (pending w) = Some b ->
  respects_suspended I T P (finally T) b.
Proof.
  intros Hs Hl. apply lookup_in in Hl.
  unfold sound in Hs. rewrite Forall_forall in Hs. apply (Hs _ Hl).
Qed.

Lemma Forall_drop {A : Type} (Q : nat * A -> Prop) i l :
  Forall Q l -> Forall Q (drop i l).
Proof.
  unfold drop. intros H. rewrite Forall_forall in *. intros x Hx.
  apply filter_In in Hx. apply H, Hx.
Qed.

(** A call that runs on from refs it respects leaves the world sound; it
    either waits again, with [I], or is over, with [T]. *)
Lemma resume_respects w now i t :
  sound I T P (finally T) w ->
  respects I T P (finally T) t (store w) ->
  let w' := fst (resume w now i t) in
  sound I T P (finally T) w' /\
  Forall (fun e => P (snd e)) (snd (resume w now i t)) /\
  calls w' = calls w /\
  ((I (store w') /\ exists b, pending w' = (i, b) :: drop i (pending w)) \/
   (T (store w') /\ pending w' = drop i (pending w))).
Proof.
  intros Hs Hr. unfold resume.
  pose proof (advance_respects I T P (finally T) t now (store w) Hr) as Hk.
  destruct (advance t now (store w)) as [[s1 evs] h].
  destruct Hk as [Hevs Hh]. simpl in *.
  assert (Hd : Forall (fun p => respects_suspended I T P (finally T) (snd p))
                 (drop i (pending w))) by (apply Forall_drop, Hs).
  repeat split.
  - unfold sound. simpl. destruct h; simpl; auto;
      constructor; simpl; tauto.
  - rewrite Forall_map. exact Hevs.
  - destruct h; simpl; [right | right | left | left | left]; try tauto;
      (split; [tauto | eexists; reflexivity]).
Qed.

End WorldFacts.

(** ** A hook with [noRender] never calls [forceUpdate] *)










(** ** One call at a time *)

Lemma exclusive_respects host s :
  respects calm lowered anything (finally lowered)
    (maybeRequestPermission host) s.
Proof.
  apply (maybeRequestPermission_respects calm lowered anything
           (fun _ => True));
    unfold calm, lowered, anything; simpl; auto.
  intros s' v [_ H]. exact H.
  intros s' [_ H]. exact H.
Qed.

Lemma drop_only {A : Type} i (b : A) : drop i [(i, b)] = [].
Proof. unfold drop. simpl. rewrite Nat.eqb_refl. reflexivity. Qed.

Lemma drop_other {A : Type} i j (b : A) :
  i <> j -> drop i [(j, b)] = [(j, b)].
Proof.
  intros H. unfold drop. simpl.
  destruct (Nat.eqb i j) eqn:E; [apply Nat.eqb_eq in E; contradiction |].
  reflexivity.
Qed.

Lemma exclusive_resume w now i t :
  exclusive w ->
  drop i (pending w) = [] ->
  (i < calls w)%nat ->
  respects calm lowered anything (finally lowered) t (store w) ->
  exclusive (fst (resume w now i t)).
Proof.
  intros (Hl & Hs & _) Hd Hi Hr.
  destruct (resume_respects calm lowered anything w now i t Hs Hr)
    as (Hs' & _ & Hc & Hcases).
  rewrite Hd in Hcases.
  destruct Hcases as [[[Hst Hfl] [b Hp]] | [Hfl Hp]].
  - repeat split; auto. right. exists i, b. rewrite Hc. auto.
  - repeat split; auto.
Qed.

Lemma exclusive_waiting w i b :
  exclusive w -> lookup i (pending w) = Some b ->
  calm (store w) /\ drop i (pending w) = [] /\ (i < calls w)%nat.
Proof.
  intros (Hl & Hs & [Hp | (j & b' & Hp & Hj & Hst)]) Hlook;
    rewrite Hp in *; simpl in Hlook; try discriminate.
  destruct (Nat.eqb i j) eqn:E; try discriminate.
  apply Nat.eqb_eq in E. subst j.
  repeat split; auto. apply drop_only.
Qed.

Lemma exclusive_settle w now i a :
  exclusive w -> exclusive (fst (settle w now i a)).
Proof.
  intros Hw. unfold settle.
  destruct (lookup i (pending w)) as [[c k | c k | k] |] eqn:El;
    destruct a as [o | o]; try exact Hw.
  - destruct (exclusive_waiting w i _ Hw El) as (Hc & Hd & Hi).
    apply exclusive_resume; auto.
    destruct Hw as (_ & Hs & _).
    apply (sound_lookup _ _ _ _ _ _ Hs El). exact Hc.
  - destruct (exclusive_waiting w i _ Hw El) as (Hc & Hd & Hi).
    apply exclusive_resume; auto.
    destruct Hw as (_ & Hs & _).
    apply (sound_lookup _ _ _ _ _ _ Hs El). exact Hc.
Qed.

Lemma exclusive_foreground w now i :
  exclusive w -> exclusive (fst (foreground w now i)).
Proof.
  intros Hw. unfold foreground.
  destruct (lookup i (pending w)) as [[c k | c k | k] |] eqn:El;
    try exact Hw.
  destruct (exclusive_waiting w i _ Hw El) as (Hc & Hd & Hi).
  apply exclusive_resume; auto.
  destruct Hw as (_ & Hs & _).
  apply (sound_lookup _ _ _ _ _ _ Hs El). exact Hc.
Qed.

Lemma exclusive_foreground_all now resolved : forall start,
  exclusive (fst start) ->
  exclusive (fst (foreground_all now resolved start)).
Proof.
  unfold foreground_all.
  induction resolved as [| j l IH]; intros [w0 evs0] H0; simpl in *.
  - exact H0.
  - pose proof (exclusive_foreground w0 now j H0) as H1.
    destruct (foreground w0 now j) as [w1 evs1]. simpl in *.
    apply IH. exact H1.
Qed.

Lemma exclusive_dispatch w now next :
  exclusive w -> exclusive (fst (dispatch w now next)).
Proof.
  intros Hw. unfold dispatch. apply exclusive_foreground_all. exact Hw.
Qed.

(** While a call is in flight, [request] only reports that and resolves
    with [Requesting]. *)
Lemma request_while_waiting host w now :
  exclusive w -> pending w <> [] ->
  step host w now request =
  ({| store := store w; pending := pending w; listeners := listeners w;
      calls := S (calls w) |},
   [(calls w,
     captureSentry
       "Cannot request permission while it is in the process of requesting."
       "usePermission.maybeRequestPermission"
       (type (savedInputs (store w))) (extras_state Requesting));
    (calls w, resolve Requesting)]).
Proof.
  intros (Hl & Hs & [Hp | (j & b & Hp & Hj & Hst)]) Hne;
    [contradiction |].
  unfold step, resume. simpl.
  destruct w as [[inputs st auto] pend ls n]. simpl in *.
  unfold lowered in Hl. simpl in Hl. subst st auto pend. simpl.
  destruct (Nat.eqb n j) eqn:E; [apply Nat.eqb_eq in E; lia |].
  reflexivity.
Qed.

Lemma exclusive_step host w now i :
  exclusive w -> exclusive (fst (step host w now i)).
Proof.
  intros Hw. destruct i as [inputs | | j a | next].
  - exact Hw.
  - destruct (pending w) as [| p l] eqn:Ep.
    + simpl. apply exclusive_resume.
      * destruct Hw as (Hl & Hs & Hc). repeat split; auto.
      * simpl. rewrite Ep. reflexivity.
      * simpl. lia.
      * apply exclusive_respects.
    + assert (Hne : pending w <> []) by (rewrite Ep; discriminate).
      rewrite (request_while_waiting host w now Hw Hne). simpl.
      destruct Hw as (Hl & Hs & [Hp | (j & b & Hp & Hj & Hst)]);
        [contradiction |].
      repeat split; auto. right. exists j, b. simpl. auto.
  - apply exclusive_settle, Hw.
  - apply exclusive_dispatch, Hw.
Qed.

Lemma exclusive_exec host schedule : forall w,
  exclusive w -> exclusive (fst (exec host w schedule)).
Proof.
  induction schedule as [| [now i] rest IH]; intros w Hw; simpl.
  - exact Hw.
  - pose proof (exclusive_step host w now i Hw) as H1.
    destruct (step host w now i) as [w1 evs1]. simpl in *.
    specialize (IH w1 H1).
    destruct (exec host w1 rest) as [w2 evs2]. exact IH.
Qed.

Lemma exclusive_mount host inputs now :
  exclusive (fst (mount host inputs now)).
Proof.
  unfold mount.
  destruct (opt_autoRequest inputs) eqn:Ea.
  - apply exclusive_resume; simpl; auto.
    + repeat split; auto. constructor.
    + unfold requestOnMount. rewrite Ea.
      change (respects calm lowered anything (finally lowered)
                (maybeRequestPermission host)
                (set_savedIsAutoRequest (usePermission_first_render inputs) true)).
      apply exclusive_respects.
  - repeat split; simpl; auto. constructor.
Qed.


(** C6.  In every world that a mounted hook can reach, at most one call of
    [request] is in flight; and while one is, the state is [Requesting]
    and a further call of [request] short-circuits: it makes one report,
    resolves its promise with [Requesting], invokes nothing of the
    provider, and leaves the refs and the call in flight as they are. *)
Theorem request_in_flight_is_exclusive host inputs now0 schedule now :
  let w := fst (exec host (fst (mount host inputs now0)) schedule) in
  (List.length (pending w) <= 1)%nat /\
  (pending w <> [] ->
   savedState (store w) = Requesting /\
   step host w now request =
   ({| store := store w; pending := pending w; listeners := listeners w;
       calls := S (calls w) |},
    [(calls w,
      captureSentry
        "Cannot request permission while it is in the process of requesting."
        "usePermission.maybeRequestPermission"
        (type (savedInputs (store w))) (extras_state Requesting));
     (calls w, resolve Requesting)])).
Proof.
  intros w.
  assert (Hw : exclusive w) by (apply exclusive_exec, exclusive_mount).
  split.
  - destruct Hw as (_ & _ & [Hp | (j & b & Hp & _)]); rewrite Hp; simpl; lia.
  - intros Hne. split.
    + destruct Hw as (_ & _ & [Hp | (j & b & Hp & _ & Hst)]);
        [contradiction | exact Hst].
    + apply request_while_waiting; assumption.
Qed.

Lemma request_in_flight_is_exclusive_witness :
  let w := fst (exec android_phone
                  (fst (mount android_phone (inputs_for camera None) 0))
                  [(1, request)]) in
  pending w <> [] /\
  snd (step android_phone w 2 request) =
  [(1%nat,
    captureSentry
      "Cannot request permission while it is in the process of requesting."
      "usePermission.maybeRequestPermission" camera (extras_state Requesting));
   (1%nat, resolve Requesting)].
Proof.
  intros w.
  assert (Hne : pending w <> []) by (vm_compute; discriminate).
  split; [exact Hne |]. subst w.
  rewrite (proj2 (proj2 (request_in_flight_is_exclusive android_phone
                           (inputs_for camera None) 0 [(1, request)] 2) Hne)).
  reflexivity.
Defined.



(** ** A call alone in the event loop *)

Lemma resume_emit w now i e k :
  resume w now i (Emit e k) =
  (fst (resume w now i k), (i, e) :: snd (resume w now i k)).
Proof.
  unfold resume. simpl.
  destruct (advance k now (store w)) as [[s1 evs] h]. reflexivity.
Qed.

Lemma drop_head {A : Type} i (b : A) l : drop i ((i, b) :: l) = drop i l.
Proof. unfold drop. simpl. rewrite Nat.eqb_refl. reflexivity. Qed.

(** A call that goes on forgets where it waited. *)
Lemma resume_forgets s b pend ls n now i t :
  resume {| store := s; pending := (i, b) :: pend; listeners := ls;
            calls := n |} now i t =
  resume {| store := s; pending := pend; listeners := ls; calls := n |}
         now i t.
Proof.
  unfold resume.
  change (pending {| store := s; pending := (i, b) :: pend; listeners := ls;
                     calls := n |}) with ((i, b) :: pend).
  rewrite drop_head. reflexivity.
Qed.

Lemma exec_app host l1 : forall w l2,
  exec host w (l1 ++ l2) =
  (fst (exec host (fst (exec host w l1)) l2),
   snd (exec host w l1) ++ snd (exec host (fst (exec host w l1)) l2)).
Proof.
  induction l1 as [| [now i] l1 IH]; intros w l2; simpl.
  - destruct (exec host w l2); reflexivity.
  - destruct (step host w now i) as [w1 evs1].
    rewrite IH.
    destruct (exec host w1 l1) as [w2 evs2]. simpl.
    destruct (exec host w2 l2) as [w3 evs3]. simpl.
    rewrite app_assoc. reflexivity.
Qed.

Section Alone.

Variables (host : Host) (i : nat) (env : Env).

(** The wait of a listener in the event loop is [listen]. *)
Lemma exec_listens h k : forall changes s pend n,
  (forall next now,
     does resolve_undefined (h next now) = true ->
     does removeEventListener (h next now) = true) ->
  let w := {| store := s; pending := (i, WaitForeground k) :: pend;
              listeners := [(i, h)]; calls := n |} in
  let x := exec host w
             (map (fun c => (fst c, appStateChange (snd c))) (heard h changes))
  in
  match listen h changes with
  | (out, Some (at_, rest)) =>
      snd x = map (pair i) out
              ++ snd (resume {| store := s; pending := pend; listeners := [];
                                calls := n |} at_ i k) /\
      fst x = fst (resume {| store := s; pending := pend; listeners := [];
                             calls := n |} at_ i k)
  | (out, None) =>
      store (fst x) = s /\ snd x = map (pair i) out
  end.
Proof.
  intros changes s pend n Htidy.
  induction changes as [| [at_ next] rest IH]; simpl.
  - split; reflexivity.
  - pose proof (Htidy next at_) as Ht.
    destruct (does resolve_undefined (h next at_)) eqn:Er; simpl.
    + rewrite (Ht eq_refl). simpl.
      unfold dispatch. simpl. rewrite Er, (Ht eq_refl). simpl.
      unfold foreground_all, foreground. simpl. rewrite Nat.eqb_refl.
      rewrite resume_forgets.
      destruct (resume _ at_ i k) as [w1 evs1]. simpl.
      rewrite app_nil_r. split; reflexivity.
    + destruct (does removeEventListener (h next at_)) eqn:Em; simpl.
      * unfold dispatch. simpl. rewrite Er, Em. simpl.
        split; reflexivity.
      * unfold dispatch. simpl. rewrite Er, Em. simpl.
        unfold foreground_all. simpl.
        cbv zeta in IH.
        match goal with
        | |- context [exec host ?w0 ?l] =>
            destruct (exec host w0 l) as [w2 evs2]
        end.
        destruct (listen h rest) as [out [[at' rest'] |]]; exact IH.
Qed.

(** In the event loop, a call that is alone does what [run] says. *)
Lemma exec_runs (t : Task unit) : forall changes now s pend n,
  tidy t ->
  drop i pend = [] ->
  let w := {| store := s; pending := pend; listeners := []; calls := n |} in
  let r := run t env changes now s in
  let x := exec host (fst (resume w now i t))
             (schedule_of i t env changes now s) in
  store (fst x) = refs_of r /\
  snd (resume w now i t) ++ snd x = map (pair i) (trace_of r).
Proof.
  induction t as [[] | e | k IH | s' k IH | e k IH | k IH | c k IH | c k IH
                 | h k IH]; intros changes now s pend n Ht Hd.
  - split; reflexivity.
  - split; reflexivity.
  - apply (IH s changes now s pend n); [apply Ht | exact Hd].
  - apply (IH changes now s' pend n); [apply Ht | exact Hd].
  - cbv zeta. rewrite resume_emit.
    destruct (IH changes now s pend n Ht Hd) as [H1 H2].
    simpl.
    destruct (run k env changes now s) as [[s1 tr] e1].
    unfold refs_of, trace_of in *. simpl in *.
    split; [exact H1 | rewrite H2; reflexivity].
  - apply (IH now changes now s pend n); [apply Ht | exact Hd].
  - cbv zeta. unfold resume at 1 3. simpl. rewrite Hd. simpl.
    unfold settle. simpl. rewrite Nat.eqb_refl.
    destruct (IH (snd (provider env c)) changes (fst (provider env c)) s
                 [(i, WaitProvider c k)] n (Ht _)
                 (drop_head i _ [])) as [H1 H2].
    cbv zeta in H1, H2.
    destruct (resume _ (fst (provider env c)) i (k (snd (provider env c))))
      as [w1 evs1].
    simpl in *.
    destruct (exec host w1 _) as [w2 evs2].
    destruct (run (k (snd (provider env c))) env changes _ s)
      as [[s1 tr] e1].
    unfold refs_of, trace_of in *. simpl in *.
    split; [exact H1 | rewrite H2; reflexivity].
  - cbv zeta. unfold resume at 1 3. simpl. rewrite Hd. simpl.
    unfold settle. simpl. rewrite Nat.eqb_refl.
    destruct (IH (snd (void env c)) changes (fst (void env c)) s
                 [(i, WaitVoid c k)] n (Ht _)
                 (drop_head i _ [])) as [H1 H2].
    cbv zeta in H1, H2.
    destruct (resume _ (fst (void env c)) i (k (snd (void env c))))
      as [w1 evs1].
    simpl in *.
    destruct (exec host w1 _) as [w2 evs2].
    destruct (run (k (snd (void env c))) env changes _ s)
      as [[s1 tr] e1].
    unfold refs_of, trace_of in *. simpl in *.
    split; [exact H1 | rewrite H2; reflexivity].
  - destruct Ht as [Hh Hk].
    cbv zeta. unfold resume at 1 3. simpl. rewrite Hd.
    rewrite exec_app.
    pose proof (exec_listens h k changes s [] n Hh) as Hl.
    cbv zeta in Hl.
    match type of Hl with
    | context [exec host ?w0 ?l] =>
        match goal with
        | |- context [exec host ?w1 (map ?f (heard h changes))] =>
            change (exec host w1 (map f (heard h changes)))
              with (exec host w0 l)
        end;
        destruct (exec host w0 l) as [wx evx]
    end.
    simpl in *.
    destruct (listen h changes) as [out [[at_ rest] |]].
    + destruct Hl as [Hl1 Hl2]. subst wx evx.
      destruct (IH rest at_ s [] n Hk eq_refl) as [H1 H2].
      cbv zeta in H1, H2.
      destruct (run k env rest at_ s) as [[s1 tr] e1].
      unfold refs_of, trace_of in *. simpl in *.
      split; [exact H1 |].
      rewrite map_app, <- H2, app_assoc. reflexivity.
    + destruct Hl as [Hl1 Hl2]. subst evx. rewrite app_nil_r.
      unfold refs_of, trace_of. simpl. split; [exact Hl1 | reflexivity].
Qed.

End Alone.

Lemma tidy_bind {A B : Type} (t : Task A) (f : A -> Task B) :
  tidy t -> (forall a, tidy (f a)) -> tidy (bind t f).
Proof.
  intros Ht Hf.
  induction t as [r | e | k IH | s' k IH | e k IH | k IH | c k IH | c k IH
                 | h k IH]; simpl in *; auto.
  destruct Ht as [Hh Hk]. split; auto.
Qed.

Lemma tidy_setStateAndResolve v : tidy (setStateAndResolve v).
Proof.
  unfold setStateAndResolve, setState. simpl. intros s.
  destruct (PermissionState_eqb (savedState s) v); simpl; auto.
  intros s'. destruct (opt_noRender (savedInputs s')); simpl; auto.
Qed.

Lemma tidy_openPermissionSettings host t message :
  tidy (openPermissionSettings host t message).
Proof.
  unfold openPermissionSettings. rewrite openAppSettings_emits. simpl.
  intros [[] | e]; simpl; auto.
  intros [[] | e]; simpl; auto.
  intros now. split; auto.
  intros next now' H. rewrite handleAppStateChange_removes. exact H.
Qed.

Lemma tidy_after_ask rc o : tidy (after_ask rc o).
Proof.
  unfold after_ask.
  destruct o as [ra | e]; [destruct (status ra) |]; simpl;
    try (intros s); try apply tidy_setStateAndResolve.
  destruct (canAskAgain rc); simpl; try apply tidy_setStateAndResolve.
  intros s [[] | e]; simpl; auto. apply tidy_setStateAndResolve.
Qed.

Lemma tidy_after_check host ask o : tidy (after_check host ask o).
Proof.
  unfold after_check.
  destruct o as [rc | e]; simpl;
    [| intros s; apply tidy_setStateAndResolve].
  destruct (PermissionStatus_eqb (status rc) GRANTED);
    [apply tidy_setStateAndResolve |].
  apply tidy_bind.
  - destruct (canAskAgain rc); simpl; auto.
    intros s. apply tidy_openPermissionSettings.
  - intros []. simpl. intros o. apply tidy_after_ask.
Qed.

Lemma tidy_maybeRequestPermission host : tidy (maybeRequestPermission host).
Proof.
  unfold maybeRequestPermission, setState.
  repeat (simpl; intros;
          match goal with
          | |- tidy (after_check _ _ _) => apply tidy_after_check
          | |- True => exact I
          | |- context [if ?b then _ else _] => destruct b
          end).
Qed.

(** A call of [request] made when no other is in flight, and fed the
    answers of [env] and the ['change'] events its listener hears, does in
    the event loop what [run] does. *)
Theorem request_alone_is_run host env changes now w :
  pending w = [] ->
  listeners w = [] ->
  let r := run (maybeRequestPermission host) env changes now (store w) in
  let x := exec host w
             ((now, request)
              :: schedule_of (calls w) (maybeRequestPermission host) env
                   changes now (store w)) in
  store (fst x) = refs_of r /\
  snd x = map (pair (calls w)) (trace_of r).
Proof.
  intros Hp Hl r x. subst r x.
  destruct w as [s pend ls n]. simpl in Hp, Hl. subst pend ls.
  pose proof (exec_runs host n env (maybeRequestPermission host) changes now
                s [] (S n) (tidy_maybeRequestPermission host) eq_refl)
    as [H1 H2].
  cbv zeta in H1, H2.
  cbn [exec step store pending listeners calls].
  destruct (resume _ now n (maybeRequestPermission host)) as [w1 evs1].
  simpl in H1, H2.
  destruct (exec host w1 _) as [w2 evs2]. simpl in *.
  split; assumption.
Qed.


(** * Further properties *)

(** ** The acquisition sequence, from [ask()] on *)

Lemma savedIsAutoRequest_set_state s v :
  savedIsAutoRequest (set_state s v) = savedIsAutoRequest s.
Proof.
  unfold set_state.
  destruct (PermissionState_eqb (savedState s) v); reflexivity.
Qed.

Lemma provider_calls_app l1 l2 :
  provider_calls (l1 ++ l2) = provider_calls l1 ++ provider_calls l2.
Proof.
  induction l1 as [| e l1 IH]; simpl; try reflexivity.
  destruct e; simpl; rewrite IH; reflexivity.
Qed.

Lemma provider_calls_rerender s v : provider_calls (rerender s v) = [].
Proof.
  unfold rerender.
  destruct (PermissionState_eqb (savedState s) v); try reflexivity.
  destruct (opt_noRender (savedInputs s)); reflexivity.
Qed.

Lemma count_rerender_rerenders s v :
  count rerenders (rerender s v) =
  (if PermissionState_eqb (savedState s) v then 0
   else if opt_noRender (savedInputs s) then 0 else 1)%nat.
Proof.
  unfold rerender.
  destruct (PermissionState_eqb (savedState s) v); try reflexivity.
  destruct (opt_noRender (savedInputs s)); reflexivity.
Qed.

Lemma last_app_cons {A : Type} (l : list A) a m d :
  last (l ++ a :: m) d = last (a :: m) d.
Proof.
  induction l as [| b l IH]; try reflexivity.
  simpl app. rewrite <- IH. simpl. destruct (l ++ a :: m) eqn:E; auto.
  destruct l; discriminate.
Qed.

(** The last event of an explicit trace. *)
Ltac to_last :=
  repeat first [rewrite app_assoc | rewrite app_comm_cons];
  rewrite ?last_app_cons; simpl.

(** Counting over an explicit trace that holds the opening of the flow. *)
Ltac observe_all :=
  unfold settled_with, prepend, trace_of, refs_of, ending_of; simpl;
  try (unfold settings_flow_opening, settings_screen;
       match goal with |- context [is_ios ?h] => destruct (is_ios h) end;
       simpl);
  repeat (rewrite ?provider_calls_app, ?provider_calls_rerender, ?count_app,
            ?count_cons, ?count_nil, ?count_rerender_rerenders,
            ?resolutions_app, ?resolutions_rerender, ?savedState_set_state,
            ?savedInputs_set_state, ?savedIsAutoRequest_set_state; simpl).

(** X1.  In a call of [request] that invokes [ask()] and gets [GRANTED],
    whether or not the Settings Redirect Flow ran before: the state is
    left [Granted], the promise of [request] is resolved once, with
    [Granted], at the time [ask()] answered; no dialog is shown and
    nothing is reported. *)
Theorem ask_granted_grants host env changes now s ra :
  let ask := provider_ask (type (savedInputs s)) in
  let r := run (maybeRequestPermission host) env changes now s in
  In (invoked_provider ask) (trace_of r) ->
  snd (provider env ask) = Fulfilled ra ->
  status ra = GRANTED ->
  savedState (refs_of r) = Granted /\
  resolutions (trace_of r) = [Granted] /\
  count shows_dialog (trace_of r) = 0%nat /\
  count reports (trace_of r) = 0%nat /\
  exists rest, ending_of r = Finished tt (fst (provider env ask)) rest.
Proof.
  intros ask r Hin Hask Hg. subst ask.
  pose proof (invoked_provider_acquiring _ _ _ _ _ _ Hin) as Hacq.
  remember r as r' eqn:Hr. subst r.
  crunch Hr; subst r'; locate Hin.
  all: try (destruct (type (savedInputs s)); discriminate).
  all: try congruence.
  all: observe.
  all: repeat split; eauto.
Qed.

Lemma ask_granted_grants_witness :
  let env := answering (response DENIED false) (response GRANTED true) in
  let r := run (maybeRequestPermission android_phone) env back_from_settings
               0 (with_state location Denied) in
  In (invoked_provider (Permissions_askAsync LOCATION)) (trace_of r) /\
  savedState (refs_of r) = Granted /\
  resolutions (trace_of r) = [Granted] /\
  count shows_dialog (trace_of r) = 0%nat.
Proof.
  intros env r.
  assert (Hin : In (invoked_provider (Permissions_askAsync LOCATION))
                   (trace_of r)) by (vm_compute; auto 20).
  split; [exact Hin |].
  destruct (ask_granted_grants android_phone env back_from_settings 0
              (with_state location Denied)
              {| status := GRANTED; canAskAgain := true |}
              Hin eq_refl eq_refl) as (H1 & H2 & H3 & _).
  auto.
Defined.

(** X2.  In a call of [request] that invokes [ask()] and gets a status
    that is neither [GRANTED] nor [DENIED] ([UNDETERMINED], or one the
    code does not know): the state is left [UnexpectedError], the promise
    is resolved once, with [UnexpectedError], no dialog is shown, and there
    is exactly one report, which carries both responses; its message and
    origin tell [UNDETERMINED] from the rest. *)
Theorem ask_anomalous_status_reported host env changes now s rc ra :
  let check := provider_check (type (savedInputs s)) in
  let ask := provider_ask (type (savedInputs s)) in
  let r := run (maybeRequestPermission host) env changes now s in
  In (invoked_provider ask) (trace_of r) ->
  snd (provider env check) = Fulfilled rc ->
  snd (provider env ask) = Fulfilled ra ->
  status ra <> GRANTED ->
  status ra <> DENIED ->
  savedState (refs_of r) = UnexpectedError /\
  resolutions (trace_of r) = [UnexpectedError] /\
  count reports (trace_of r) = 1%nat /\
  count shows_dialog (trace_of r) = 0%nat /\
  In (captureSentry
        (match status ra with
         | UNDETERMINED => "Got undetermined after permission request."
         | _ => "Unhandled permission status returned."
         end)
        (match status ra with
         | UNDETERMINED => "usePermission.requestPermission.askMethod"
         | _ => "usePermission.requestPermission"
         end)
        (type (savedInputs s)) (extras_ask_check ra rc))
     (trace_of r).
Proof.
  intros check ask r Hin Hcheck Hask Hng Hnd. subst check ask.
  pose proof (invoked_provider_acquiring _ _ _ _ _ _ Hin) as Hacq.
  remember r as r' eqn:Hr. subst r.
  crunch Hr; subst r'; locate Hin.
  all: try (destruct (type (savedInputs s)); discriminate).
  all: try congruence.
  all: destruct (status ra) eqn:Hst; try congruence.
  all: observe.
  all: repeat split; auto.
  all: rewrite ?in_app_iff; simpl; auto 20.
Qed.

Lemma ask_anomalous_status_reported_witness :
  let env := answering (response DENIED true) (response UNDETERMINED true) in
  let r := run (maybeRequestPermission android_phone) env []
               0 (with_state camera NotYetRequested) in
  In (invoked_provider BarCodeScanner_requestPermissionsAsync) (trace_of r) /\
  savedState (refs_of r) = UnexpectedError /\
  resolutions (trace_of r) = [UnexpectedError] /\
  count reports (trace_of r) = 1%nat.
Proof.
  intros env r.
  assert (Hin : In (invoked_provider BarCodeScanner_requestPermissionsAsync)
                   (trace_of r)) by (vm_compute; auto 20).
  split; [exact Hin |].
  assert (Hg : UNDETERMINED <> GRANTED) by discriminate.
  assert (Hd : UNDETERMINED <> DENIED) by discriminate.
  destruct (ask_anomalous_status_reported android_phone env [] 0
              (with_state camera NotYetRequested)
              {| status := DENIED; canAskAgain := true |}
              {| status := UNDETERMINED; canAskAgain := true |}
              Hin eq_refl eq_refl Hg Hd) as (H1 & H2 & H3 & _).
  auto.
Defined.

(** X3.  In a call of [request] that starts an acquisition sequence, the
    value the promise is resolved with is a function of the answers of
    [check()] and [ask()] alone, [verdict]; the host, the clock, the
    events of [AppState], [noRender] and the dialogs have no part in it.
    The state is left at that value. *)
Theorem resolved_state_is_the_providers_verdict host env changes now s v :
  let check := provider_check (type (savedInputs s)) in
  let ask := provider_ask (type (savedInputs s)) in
  let r := run (maybeRequestPermission host) env changes now s in
  acquiring s = true ->
  In (resolve v) (trace_of r) ->
  v = verdict (snd (provider env check)) (snd (provider env ask)) /\
  savedState (refs_of r) = v.
Proof.
  intros check ask r Hacq Hin. subst check ask.
  remember r as r' eqn:Hr. subst r.
  crunch Hr; subst r'; locate Hin; unfold verdict.
  all: repeat match goal with
         | H : ?x = _ |- context [?x] => rewrite H
         end.
  all: try (injection Hin as <-); observe; auto.
Qed.

Lemma resolved_state_is_the_providers_verdict_witness :
  let env := answering (response UNDETERMINED false) (response DENIED true) in
  let s := with_state notifications UnexpectedError in
  let r := run (maybeRequestPermission android_phone) env back_from_settings
               0 s in
  acquiring s = true /\
  In (resolve Denied) (trace_of r) /\
  savedState (refs_of r) = Denied.
Proof.
  intros env s r.
  assert (Ha : acquiring s = true) by reflexivity.
  assert (Hin : In (resolve Denied) (trace_of r)) by (vm_compute; auto 30).
  split; [exact Ha |]. split; [exact Hin |].
  exact (proj2 (resolved_state_is_the_providers_verdict android_phone env
                  back_from_settings 0 s Denied Ha Hin)).
Defined.

(** X4.  What a call of [request] invokes of the provider is nothing
    (the call short-circuits), [check()] alone, or [check()] and then
    [ask()], each once and for the kind of permission the inputs had when
    the call was made; and [ask()] is invoked only when [check()] was
    fulfilled with a status other than [GRANTED]. *)
Theorem provider_called_in_order host env changes now s :
  let check := provider_check (type (savedInputs s)) in
  let ask := provider_ask (type (savedInputs s)) in
  let tr := trace_of (run (maybeRequestPermission host) env changes now s) in
  (provider_calls tr = [] /\ acquiring s = false) \/
  (provider_calls tr = [check] /\ acquiring s = true) \/
  (provider_calls tr = [check; ask] /\ acquiring s = true /\
   exists rc, snd (provider env check) = Fulfilled rc /\ status rc <> GRANTED).
Proof.
  intros check ask tr. subst check ask.
  remember (run (maybeRequestPermission host) env changes now s) as r eqn:Hr.
  rewrite run_maybeRequestPermission in Hr. cbv zeta in Hr.
  destruct (acquiring s) eqn:Hacq.
  - right.
    crunch Hr; subst r tr.
    all: observe_all.
    all: first [ left; split; reflexivity
               | right; split; [reflexivity | split; [reflexivity |]];
                 eexists; split; [reflexivity | congruence] ].
  - left. subst r tr. split; reflexivity.
Qed.

(** X5.  The promise of [request] is resolved exactly when the call
    returns: a call that returned has resolved it once, as the last thing
    it did, with the state it leaves in the refs; a call that threw, or
    that is still waiting, has not resolved it. *)
Theorem request_resolves_once_at_end host env changes now s :
  let r := run (maybeRequestPermission host) env changes now s in
  match ending_of r with
  | Finished _ _ _ =>
      last (trace_of r) forceUpdate = resolve (savedState (refs_of r)) /\
      resolutions (trace_of r) = [savedState (refs_of r)]
  | _ => resolutions (trace_of r) = []
  end.
Proof.
  intros r. remember r as r' eqn:Hr. subst r.
  rewrite run_maybeRequestPermission in Hr. cbv zeta in Hr.
  destruct (acquiring s) eqn:Hacq.
  - crunch Hr; subst r'.
    all: unfold settled_with, prepend, trace_of, refs_of, ending_of; simpl.
    all: rewrite ?savedState_set_state.
    all: try (observe; reflexivity).
    all: split; [to_last; reflexivity | observe; reflexivity].
  - subst r'. unfold trace_of, refs_of, ending_of. simpl. auto.
Qed.

(** X6.  A call of [request] makes at most one report.  A call that
    short-circuits makes one; a call that runs an acquisition sequence
    makes one exactly when it returns with the state [UnexpectedError],
    and none when it returns with another state, throws, or waits. *)
Theorem unexpected_error_iff_reported host env changes now s :
  let r := run (maybeRequestPermission host) env changes now s in
  count reports (trace_of r) =
  (if acquiring s then
     match ending_of r with
     | Finished _ _ _ =>
         if PermissionState_eqb (savedState (refs_of r)) UnexpectedError
         then 1 else 0
     | _ => 0
     end
   else 1)%nat.
Proof.
  intros r. remember r as r' eqn:Hr. subst r.
  rewrite run_maybeRequestPermission in Hr. cbv zeta in Hr.
  destruct (acquiring s) eqn:Hacq.
  - crunch Hr; subst r'; observe; reflexivity.
  - subst r'. reflexivity.
Qed.


(** X8.  The dialogs and the loading of the images are awaited outside
    any [try]: when a call of [request] throws, it is because one of them
    was rejected, with that error.  The promise of [request] is then
    never resolved, nothing is reported, and the state is left
    [Requesting]. *)
Theorem modal_rejection_strands_request host env changes now s e :
  let r := run (maybeRequestPermission host) env changes now s in
  ending_of r = Failed e ->
  resolutions (trace_of r) = [] /\
  count reports (trace_of r) = 0%nat /\
  savedState (refs_of r) = Requesting /\
  savedIsAutoRequest (refs_of r) = false /\
  exists c, In (invoked_void c) (trace_of r) /\ snd (void env c) = Rejected e.
Proof.
  intros r Hend. remember r as r' eqn:Hr. subst r.
  rewrite run_maybeRequestPermission in Hr. cbv zeta in Hr.
  destruct (acquiring s) eqn:Hacq.
  - crunch Hr; subst r'.
    all: unfold settled_with, prepend, trace_of, refs_of, ending_of in *;
      simpl in *; try discriminate.
    all: injection Hend as ->.
    all: rewrite ?savedState_set_state, ?savedIsAutoRequest_set_state.
    all: repeat split;
      [ observe; reflexivity | observe; reflexivity
      | eexists; split;
        [| first [ eassumption
                 | match goal with
                   | H : void _ ?c = _ |- _ => rewrite H; reflexivity
                   end ]];
        rewrite ?in_app_iff; simpl; auto 30 ].
  - subst r'. discriminate.
Qed.

Lemma modal_rejection_strands_request_witness :
  let r := run (maybeRequestPermission android_phone) failing_assets
               back_from_settings 0 (with_state camera NotYetRequested) in
  ending_of r = Failed "E_ASSET" /\
  resolutions (trace_of r) = [] /\
  savedState (refs_of r) = Requesting.
Proof.
  intros r.
  assert (Hend : ending_of r = Failed "E_ASSET") by reflexivity.
  split; [exact Hend |].
  destruct (modal_rejection_strands_request android_phone failing_assets
              back_from_settings 0 (with_state camera NotYetRequested)
              "E_ASSET" Hend) as (H1 & _ & H3 & _).
  auto.
Defined.

(** X9.  [run] drives a call against an environment that settles every
    promise the call awaits: [check()], [ask()], the loading of the images
    and the dialogs all answer.  Under that assumption, a call of
    [request] that still does not end ([Waiting]) is one that waits in the
    Settings Redirect Flow for the app to come back: [check()] said that
    it cannot ask again, and no change to [active] comes more than
    1000 ms after the dialog was confirmed.  Then [ask()] is not invoked,
    the promise is not resolved, the state stays [Requesting], and the
    listener the flow added is not removed.  (A call whose provider or
    dialog promise never settles waits as well; that is outside [run].) *)
Theorem request_waits_only_for_foreground host env changes now s :
  let check := provider_check (type (savedInputs s)) in
  let dialog := modal_open (settings_modal host (type (savedInputs s))
                              (getReason (savedInputs s))) in
  let r := run (maybeRequestPermission host) env changes now s in
  ending_of r = Waiting ->
  (exists rc,
     snd (provider env check) = Fulfilled rc /\
     status rc <> GRANTED /\ canAskAgain rc = false) /\
  foregrounded (fst (void env dialog)) changes = None /\
  savedState (refs_of r) = Requesting /\
  resolutions (trace_of r) = [] /\
  provider_calls (trace_of r) = [check] /\
  count adds_listener (trace_of r) = 1%nat /\
  count removes_listener (trace_of r) = 0%nat.
Proof.
  intros check dialog r Hend. subst check dialog.
  remember r as r' eqn:Hr. subst r.
  rewrite run_maybeRequestPermission in Hr. cbv zeta in Hr.
  destruct (acquiring s) eqn:Hacq; [| subst r'; discriminate].
  crunch Hr; subst r'.
  all: unfold settled_with, prepend, trace_of, refs_of, ending_of in *;
    simpl in *; try discriminate.
  all: rewrite ?savedInputs_set_state in *.
  all: change (savedInputs (set_savedIsAutoRequest s false))
         with (savedInputs s) in *.
  all: split;
    [eexists; split; [reflexivity | split; [congruence | assumption]] |].
  all: split; [match goal with
               | H : void _ _ = _ |- _ => rewrite H; simpl; assumption
               end |].
  all: unfold settings_flow_opening, settings_screen; destruct (is_ios host).
  all: repeat (rewrite ?provider_calls_app, ?provider_calls_rerender,
                 ?count_app, ?resolutions_app, ?resolutions_rerender,
                 ?savedState_set_state;
               rewrite ?count_rerender by reflexivity; simpl).
  all: auto.
Qed.

Lemma request_waits_only_for_foreground_witness :
  let env := answering (response DENIED false) (response GRANTED true) in
  let r := run (maybeRequestPermission android_phone) env
               [(30, background); (40, active)] 0
               (with_state camera NotYetRequested) in
  ending_of r = Waiting /\
  savedState (refs_of r) = Requesting /\
  provider_calls (trace_of r) = [BarCodeScanner_getPermissionsAsync] /\
  count removes_listener (trace_of r) = 0%nat.
Proof.
  intros env r.
  assert (Hend : ending_of r = Waiting) by reflexivity.
  split; [exact Hend |].
  destruct (request_waits_only_for_foreground android_phone env
              [(30, background); (40, active)] 0
              (with_state camera NotYetRequested) Hend)
    as (_ & _ & H3 & _ & H5 & _ & H7).
  auto.
Defined.

(** ** The Settings Redirect Flow, and what it shows *)

(** X10.  [openPermissionSettings] awaits the loading of the images and
    then the dialog, with no [try]: it throws exactly when one of the two
    is rejected, with that error.  When the images fail the dialog is
    never opened; when the dialog is rejected the settings screen is not
    opened and no listener is added. *)
Theorem settings_flow_propagates_rejection host t message env changes now s e :
  let assets := Asset_loadAsync_all (images (settings_steps host t)) in
  let dialog := modal_open (settings_modal host t message) in
  let r := run (openPermissionSettings host t message) env changes now s in
  (ending_of r = Failed e <->
   snd (void env assets) = Rejected e \/
   (snd (void env assets) = Fulfilled tt /\
    snd (void env dialog) = Rejected e)) /\
  (snd (void env assets) = Rejected e ->
   trace_of r = [called_openPermissionSettings t message;
                 invoked_void assets]) /\
  (snd (void env assets) = Fulfilled tt ->
   snd (void env dialog) = Rejected e ->
   trace_of r = [called_openPermissionSettings t message;
                 invoked_void assets; invoked_void dialog]).
Proof.
  intros assets dialog r. subst assets dialog r.
  rewrite run_openPermissionSettings.
  destruct (snd (void env (Asset_loadAsync_all _))) as [[] | e1];
    [destruct (snd (void env (modal_open (settings_modal _ _ _))))
       as [[] | e2] eqn:Hd;
     destruct (void env (modal_open (settings_modal _ _ _)))
       as [opened o]; simpl in Hd; subst o;
     try destruct (foregrounded opened changes) as [[at_ rest] |] |];
    unfold ending_of, trace_of; simpl.
  all: repeat split; intros;
    repeat match goal with
           | H : _ \/ _ |- _ => destruct H
           | H : _ /\ _ |- _ => destruct H
           end;
    try discriminate; try congruence;
    try (left; congruence); try (right; split; congruence).
Qed.

Lemma settings_flow_propagates_rejection_witness :
  let r := run (openPermissionSettings android_phone camera "To scan:")
               failing_assets back_from_settings 0
               (with_state camera Requesting) in
  ending_of r = Failed "E_ASSET" /\
  trace_of r =
    [called_openPermissionSettings camera "To scan:";
     invoked_void
       (Asset_loadAsync_all ["./CameraAndroid.png"; "./ToggleOnAndroid.png"])].
Proof.
  intros r.
  destruct (settings_flow_propagates_rejection android_phone camera
              "To scan:" failing_assets back_from_settings 0
              (with_state camera Requesting) "E_ASSET") as (H1 & H2 & _).
  split; [apply H1; left; reflexivity | exact (H2 eq_refl)].
Defined.

(** X11.  [openPermissionSettings] opens the settings screen exactly when
    it adds its listener, once, and this unless it threw; and it has
    removed the listener exactly when it has returned.  So a flow that
    returned leaves no listener behind, and one that waits has one. *)
Theorem settings_flow_listener_balance host t message env changes now s :
  let r := run (openPermissionSettings host t message) env changes now s in
  count opens_settings_screen (trace_of r) = count adds_listener (trace_of r)
  /\
  count adds_listener (trace_of r) =
    match ending_of r with Failed _ => 0 | _ => 1 end%nat /\
  count removes_listener (trace_of r) =
    match ending_of r with Finished _ _ _ => 1 | _ => 0 end%nat.
Proof.
  intros r. subst r. rewrite run_openPermissionSettings.
  destruct (snd (void env (Asset_loadAsync_all _))) as [[] | e1];
    try destruct (void env (modal_open (settings_modal _ _ _)))
      as [opened [[] | e2]];
    try destruct (foregrounded opened changes) as [[at_ rest] |];
    unfold trace_of, ending_of, settings_flow_opening, settings_screen;
    destruct (is_ios host); simpl; auto.
Qed.

Lemma flags_bits (n : Z) :
  Z.testbit 1350565888 n = true <-> n = 23 \/ n = 28 \/ n = 30.
Proof.
  split.
  - intros H.
    destruct (Z.ltb_spec n 0) as [Hneg | Hpos].
    + rewrite Z.testbit_neg_r in H by assumption. discriminate.
    + destruct (Z.ltb_spec n 31) as [Hlt | Hge].
      * assert (Hn : exists k, (k < 31)%nat /\ n = Z.of_nat k)
          by (exists (Z.to_nat n); lia).
        destruct Hn as (k & Hk & ->).
        do 31 (destruct k as [| k];
               [vm_compute in H; first [discriminate | lia] |]).
        lia.
      * rewrite Z.bits_above_log2 in H; try lia; try discriminate.
        change (Z.log2 1350565888) with 30. lia.
  - intros [-> | [-> | ->]]; reflexivity.
Qed.

(** X12.  [openAppSettings] makes one call, waits for nothing and leaves
    the refs alone.  On iOS it opens the URL [app-settings:]; on every
    other platform, Android or not, it starts the settings activity for
    the package of the manifest, with flags that have exactly the bits of
    the three [FLAG_ACTIVITY_...] constants (23, 28 and 30) set and fit
    the 32-bit integers that [|] works on. *)
Theorem openAppSettings_single_call host env changes now s :
  exists e,
    run (openAppSettings host) env changes now s
    = (s, [e], Finished tt now changes) /\
    (OS host = ios -> e = Linking_openURL "app-settings:") /\
    (OS host <> ios ->
     exists flags,
       e = IntentLauncher_startActivityAsync
             "ACTION_APPLICATION_DETAILS_SETTINGS"
             (String.append "package:" (android_package host)) flags /\
       (forall n, Z.testbit flags n = true <-> n = 23 \/ n = 28 \/ n = 30) /\
       0 <= flags < 2 ^ 31).
Proof.
  unfold openAppSettings, is_ios.
  destruct (OS host); simpl; eexists; (split; [reflexivity |]);
    (split; [intros; congruence |]); intros Hos; try congruence.
  all: eexists; split; [reflexivity |];
    split; [| vm_compute; split; congruence].
  all: intros n; apply flags_bits.
Qed.

Lemma openAppSettings_single_call_witness :
  let s := with_state camera Requesting in
  let env := answering (response DENIED false) (response DENIED false) in
  OS android_phone <> ios /\
  run (openAppSettings android_phone) env [] 0 s =
    (s, [IntentLauncher_startActivityAsync
           "ACTION_APPLICATION_DETAILS_SETTINGS" "package:com.example.app"
           1350565888], Finished tt 0 []).
Proof.
  intros s env.
  assert (Hos : OS android_phone <> ios) by discriminate.
  split; [exact Hos |].
  destruct (openAppSettings_single_call android_phone env [] 0 s)
    as (e & Hrun & _ & _).
  rewrite Hrun. vm_compute in Hrun. injection Hrun as <-. reflexivity.
Defined.

Lemma NoDup_map_injective {A B : Type} (f : A -> B) (l : list A) :
  (forall a b, f a = f b -> a = b) -> NoDup l -> NoDup (map f l).
Proof.
  intros Hf Hl. induction Hl as [| a l Ha Hl IH]; simpl; constructor; auto.
  intros Hin. apply in_map_iff in Hin. destruct Hin as (b & Hb & Hin).
  apply Hf in Hb. subst b. contradiction.
Qed.

(** X13.  Whatever the platform and the kind of permission, the steps of
    the instructions have translation keys that differ from one another.
    The [key] that [PermissionSettingsModal] gives to a row is the
    translated label, so the [key]s of the rows are distinct under every
    translation that takes distinct keys to distinct strings. *)
Theorem step_labels_distinct host t (translate : string -> string) :
  (forall a b, translate a = translate b -> a = b) ->
  NoDup (map label (settings_steps host t)) /\
  NoDup (map (fun step => translate (label step)) (settings_steps host t)).
Proof.
  intros Hinj.
  assert (Hkeys : NoDup (map label (settings_steps host t))).
  { unfold settings_steps, getCameraSteps, getLocationSteps,
      getNotificationsSteps, is_android, is_ios.
    destruct t, (OS host); simpl;
      repeat (constructor; [simpl; intuition discriminate |]); constructor. }
  split; [exact Hkeys |].
  rewrite <- (map_map label translate).
  apply NoDup_map_injective; assumption.
Qed.

Lemma step_labels_distinct_witness :
  let translate := String.append "fr: " in
  (forall a b, translate a = translate b -> a = b) /\
  NoDup (map (fun step => translate (label step))
             (settings_steps android_phone location)).
Proof.
  intros translate.
  assert (Hinj : forall a b, translate a = translate b -> a = b)
    by (intros a b H; injection H as H; exact H).
  split; [exact Hinj |].
  exact (proj2 (step_labels_distinct android_phone location translate Hinj)).
Defined.

(** X14.  Whatever the platform and the kind of permission, the
    instructions have at least one image to load, and every image is one
    for the platform: an [...Ios.png] on iOS, an [...Android.png] on any
    other platform.  The step [tapPermissions] is there exactly on
    Android, for the camera and for the location. *)
Theorem steps_follow_platform host t :
  images (settings_steps host t) <> [] /\
  forallb (ends_with (if is_ios host then "Ios.png" else "Android.png"))
          (images (settings_steps host t)) = true /\
  existsb (fun st => String.eqb (label st)
                       (i18n_t "permissions.general.tapPermissions"))
          (settings_steps host t) =
    is_android host && match t with notifications => false | _ => true end.
Proof.
  unfold settings_steps, getCameraSteps, getLocationSteps,
    getNotificationsSteps, is_android, is_ios.
  destruct t, (OS host); simpl; repeat split; discriminate.
Qed.

(** ** The components *)

Lemma step_views_nth format steps : forall ix i step,
  nth_error steps i = Some step ->
  nth_error (step_views format ix steps) i =
  Some (View (Some (label step))
          ([Text (String.append (format (ix + i + 1)%nat) ". ")]
           ++ match image step with
              | Some img => [Image img]
              | None => []
              end
           ++ [Text (String.append
                       (match image step with Some _ => " " | None => "" end)
                       (label step))])).
Proof.
  induction steps as [| st rest IH]; intros ix i step H.
  - destruct i; discriminate.
  - destruct i as [| i]; simpl in *.
    + injection H as ->. rewrite Nat.add_0_r. reflexivity.
    + rewrite (IH (S ix) i step H).
      replace (S ix + i + 1)%nat with (ix + S i + 1)%nat by lia.
      reflexivity.
Qed.

Lemma step_views_length format steps : forall ix,
  List.length (step_views format ix steps) = List.length steps.
Proof.
  induction steps as [| st rest IH]; intros ix; simpl; auto.
Qed.

Lemma pictures_step_views format steps : forall ix,
  flat_map pictures (step_views format ix steps) = images steps.
Proof.
  induction steps as [| st rest IH]; intros ix; simpl; try reflexivity.
  rewrite IH. destruct (image st); reflexivity.
Qed.

Lemma pictures_PermissionSettingsModal_render format title message steps :
  pictures (PermissionSettingsModal_render format title message steps)
  = images steps.
Proof.
  unfold PermissionSettingsModal_render. simpl.
  rewrite pictures_step_views, !app_nil_r. reflexivity.
Qed.

(** X15.  [PermissionSettingsModal] renders one row for each step, in the
    order of the steps; the row of the step at index [i] has the label of
    the step as its key, begins with the number [i + 1] as [numeral]
    formats it, followed by a dot, and displays the image of the step when
    the step has one, and no image otherwise. *)
Theorem modal_steps_numbered_from_one format title message steps :
  exists rows button,
    PermissionSettingsModal_render format title message steps =
    View None [View None [Text title; Text message; StyleText rows; button]]
    /\
    List.length rows = List.length steps /\
    forall i step,
      nth_error steps i = Some step ->
      exists rest,
        nth_error rows i =
        Some (View (Some (label step))
                (Text (String.append (format (S i)) ". ") :: rest)) /\
        pictures (StyleText rest) =
          match image step with Some img => [img] | None => [] end.
Proof.
  do 2 eexists. split; [reflexivity |]. split.
  - apply step_views_length.
  - intros i step H. eexists. split.
    + rewrite (step_views_nth format steps 0 i step H).
      replace (0 + i + 1)%nat with (S i) by lia. reflexivity.
    + destruct (image step); reflexivity.
Qed.

Lemma modal_steps_numbered_from_one_witness :
  let steps := settings_steps android_phone camera in
  let step := {| label := "permissions.findCameraSetting";
                 image := Some "./CameraAndroid.png" |} in
  nth_error steps 2 = Some step /\
  nth_error
    (step_views (fun n => if Nat.eqb n 3 then "3" else "?") 0 steps) 2 =
  Some (View (Some "permissions.findCameraSetting")
          [Text "3. "; Image "./CameraAndroid.png";
           Text " permissions.findCameraSetting"]).
Proof.
  intros steps step.
  assert (Hn : nth_error steps 2 = Some step) by reflexivity.
  split; [exact Hn |].
  destruct (modal_steps_numbered_from_one
              (fun n => if Nat.eqb n 3 then "3" else "?")
              "permissions.title.camera" "To scan QR codes:" steps)
    as (rows & button & Hv & _ & Hrows).
  destruct (Hrows 2%nat step Hn) as (rest & Hrow & _).
  injection Hv as <- _. reflexivity.
Defined.

(** X16.  When [openPermissionSettings] opens its dialog, the images that
    the dialog displays are the ones it has just loaded: the call before
    [modal.open] is the loading of exactly the images that
    [PermissionSettingsModal] renders for these props, and it was
    fulfilled; the message of the dialog is the one the flow was given. *)
Theorem modal_pictures_are_preloaded
  format host t message env changes now s title message' steps :
  let tr := trace_of (run (openPermissionSettings host t message)
                        env changes now s) in
  In (invoked_void (modal_open (PermissionSettingsModal title message' steps)))
     tr ->
  let assets :=
    Asset_loadAsync_all
      (pictures (PermissionSettingsModal_render format title message' steps))
  in
  snd (void env assets) = Fulfilled tt /\
  message' = message /\
  exists after,
    tr = [called_openPermissionSettings t message; invoked_void assets;
          invoked_void
            (modal_open (PermissionSettingsModal title message' steps))]
         ++ after.
Proof.
  intros tr Hin assets. subst tr assets.
  rewrite pictures_PermissionSettingsModal_render.
  rewrite run_openPermissionSettings in *.
  destruct (snd (void env (Asset_loadAsync_all _))) as [[] | e1] eqn:Ha;
    [destruct (void env (modal_open (settings_modal _ _ _)))
       as [opened [[] | e2]];
     try destruct (foregrounded opened changes) as [[at_ rest] |] |];
    unfold trace_of, settings_flow_opening in *; simpl in *.
  all: repeat match goal with
         | H : _ \/ _ |- _ => destruct H
         | H : False |- _ => destruct H
         | H : settings_screen ?h = _ |- _ =>
             unfold settings_screen in H; destruct (is_ios h)
         | H : _ = _ :> Event |- _ => discriminate H
         end.
  all: match goal with
       | H : invoked_void _ = invoked_void _ |- _ =>
           unfold settings_modal in H; injection H as <- <- <-
       end.
  all: rewrite Ha; repeat split; eexists; reflexivity.
Qed.

Lemma modal_pictures_are_preloaded_witness :
  let env := answering (response DENIED false) (response DENIED false) in
  let steps := settings_steps android_phone notifications in
  let tr := trace_of (run (openPermissionSettings android_phone notifications
                             "To notify you:")
                        env back_from_settings 0
                        (with_state notifications Requesting)) in
  In (invoked_void
        (modal_open (PermissionSettingsModal "permissions.title.notifications"
                       "To notify you:" steps))) tr /\
  In (invoked_void (Asset_loadAsync_all ["./ToggleOnAndroid.png"])) tr.
Proof.
  intros env steps tr.
  assert (Hin : In (invoked_void
                      (modal_open
                         (PermissionSettingsModal
                            "permissions.title.notifications"
                            "To notify you:" steps))) tr)
    by (vm_compute; auto).
  split; [exact Hin |].
  destruct (modal_pictures_are_preloaded (fun _ => EmptyString) android_phone
              notifications "To notify you:" env back_from_settings 0
              (with_state notifications Requesting)
              "permissions.title.notifications" "To notify you:" steps Hin)
    as (_ & _ & after & Heq).
  fold tr in Heq. rewrite Heq. simpl. auto.
Defined.

(** X17.  [ScannerView] shows the scanner when the state is [Granted] and
    the spinner when it is [Requesting]; in every other state it shows a
    message that its table defines, and the button; and from each state
    in which the button is shown, the [request] that the button calls
    starts an acquisition sequence: it sets the state to [Requesting],
    calls [forceUpdate] and invokes [check()] for the camera. *)
Theorem scanner_button_starts_acquisition host now s :
  savedInputs s = ScannerView_inputs ->
  (savedState s = Granted /\ ScannerView s = View None [BarCodeScanner]) \/
  (savedState s = Requesting /\
   ScannerView s = View None [Text (i18n_t "scan.permission.loading"); Spinner])
  \/
  (exists message,
     NotYetGrantedView_message (Some (savedState s)) = Some message /\
     ScannerView s =
       View None [Text message;
                  Button (i18n_t "scan.grantButton") permission_request] /\
     advance (maybeRequestPermission host) now s =
       (set_savedState (set_savedIsAutoRequest s false) Requesting,
        [forceUpdate; invoked_provider BarCodeScanner_getPermissionsAsync],
        OnProvider BarCodeScanner_getPermissionsAsync
          (after_check host BarCodeScanner_requestPermissionsAsync))).
Proof.
  intros Hi. rewrite advance_maybeRequestPermission.
  unfold ScannerView, usePermission_api, acquiring, set_state, rerender.
  simpl. rewrite Hi. simpl.
  destruct (savedState s) eqn:Hs; simpl; auto.
  all: right; right; eexists; repeat split; reflexivity.
Qed.

Lemma scanner_button_starts_acquisition_witness :
  let s := {| savedInputs := ScannerView_inputs; savedState := Denied;
              savedIsAutoRequest := false |} in
  savedInputs s = ScannerView_inputs /\
  ScannerView s =
    View None [Text "scan.errors.denied.message";
               Button "scan.grantButton" permission_request] /\
  snd (fst (advance (maybeRequestPermission android_phone) 0 s)) =
    [forceUpdate; invoked_provider BarCodeScanner_getPermissionsAsync].
Proof.
  intros s. split; [reflexivity |].
  destruct (scanner_button_starts_acquisition android_phone 0 s eq_refl)
    as [[H _] | [[H _] | (m & Hm & Hv & Ha)]]; try discriminate H.
  rewrite Ha. split; [| reflexivity].
  rewrite Hv. injection Hm as <-. reflexivity.
Defined.

(** ** The mounted hook *)

(** X18.  The mount of the hook.  With [autoRequest], the mount effect
    starts one acquisition sequence: it invokes [check()] for the kind of
    the inputs and waits for it, with the state [Requesting] that the
    first render gave, without a [forceUpdate] and without a report, and
    with the flag of the automatic request down again.  Without
    [autoRequest] it does nothing, and the state is [NotYetRequested].
    Afterwards the flag is down between any two steps of the event loop:
    only the call of the mount effect passes the guard on [Requesting]. *)
Theorem auto_request_at_mount host inputs now schedule :
  mount host inputs now =
  (if opt_autoRequest inputs then
     ({| store := {| savedInputs := inputs; savedState := Requesting;
                     savedIsAutoRequest := false |};
         pending := [(0%nat,
                      WaitProvider (provider_check (type inputs))
                        (after_check host (provider_ask (type inputs))))];
         listeners := []; calls := 1 |},
      [(0%nat, invoked_provider (provider_check (type inputs)))])
   else
     ({| store := {| savedInputs := inputs; savedState := NotYetRequested;
                     savedIsAutoRequest := false |};
         pending := []; listeners := []; calls := 0 |}, [])) /\
  savedIsAutoRequest
    (store (fst (exec host (fst (mount host inputs now)) schedule))) = false.
Proof.
  split.
  - unfold mount, requestOnMount, usePermission_first_render.
    destruct (opt_autoRequest inputs) eqn:Ea; reflexivity.
  - pose proof (exclusive_exec host schedule _
                  (exclusive_mount host inputs now)) as (H & _).
    exact H.
Qed.

Lemma foreground_all_idle now resolved w evs :
  pending w = [] -> foreground_all now resolved (w, evs) = (w, evs).
Proof.
  intros Hp. unfold foreground_all.
  induction resolved as [| i rest IH]; simpl; try reflexivity.
  unfold foreground. simpl. rewrite Hp. simpl. rewrite app_nil_r. exact IH.
Qed.

(** In an idle world every step leaves the world idle: a call of
    [request] short-circuits, and nothing else has a call to run. *)
Lemma idle_step host st w now i :
  idle st w ->
  let x := step host w now i in
  idle st (fst x) /\
  provider_calls (trace_in x) = [] /\
  count rerenders (trace_in x) = 0%nat /\
  resolutions (trace_in x) = if is_request (now, i) then [st] else [].
Proof.
  intros (Hp & Hs & Ha). destruct i as [inputs | | j a | next];
    cbv zeta; unfold step.
  - simpl. repeat split; auto.
  - unfold resume. cbn [store pending listeners calls].
    rewrite advance_maybeRequestPermission.
    cbv zeta. rewrite Ha, Hp. unfold idle, trace_in. simpl.
    repeat split; auto; try congruence.
    unfold acquiring in *. simpl.
    destruct (savedState (store w)); simpl in *; auto.
  - unfold settle. rewrite Hp. simpl. repeat split; auto.
  - unfold dispatch. rewrite foreground_all_idle by exact Hp.
    unfold idle, trace_in. simpl. repeat split; auto.
    all: induction (listeners w) as [| [k h] l IH]; simpl; auto.
    all: destruct (does removeEventListener (h next now)); simpl; auto.
Qed.

Lemma idle_exec host st schedule : forall w,
  idle st w ->
  let x := exec host w schedule in
  idle st (fst x) /\
  provider_calls (trace_in x) = [] /\
  count rerenders (trace_in x) = 0%nat /\
  resolutions (trace_in x) = repeat st (requests_in schedule).
Proof.
  induction schedule as [| [now i] rest IH]; intros w Hw; simpl.
  - repeat split; auto; apply Hw.
  - pose proof (idle_step host st w now i Hw) as (H1 & H2 & H3 & H4).
    destruct (step host w now i) as [w1 evs1]. simpl in *.
    specialize (IH w1 H1). destruct (exec host w1 rest) as [w2 evs2].
    destruct IH as (I1 & I2 & I3 & I4). unfold trace_in in *. simpl in *.
    rewrite map_app, provider_calls_app, count_app, resolutions_app.
    rewrite H2, H3, H4, I2, I3, I4.
    split; [exact I1 |]. split; [reflexivity |]. split; [reflexivity |].
    unfold requests_in. simpl. destruct (is_request (now, i)); reflexivity.
Qed.

(** X19.  [Granted] is absorbing for a mounted hook: once the state is
    [Granted], whatever comes next (calls of [request], renders, changes
    of [AppState], late answers), the state stays [Granted], no call is in
    flight, the provider is never invoked, [forceUpdate] is never called,
    and every call of [request] is resolved at once with [Granted]. *)
Theorem granted_is_absorbing host inputs now0 before schedule :
  let w := fst (exec host (fst (mount host inputs now0)) before) in
  savedState (store w) = Granted ->
  let x := exec host w schedule in
  savedState (store (fst x)) = Granted /\
  pending (fst x) = [] /\
  provider_calls (trace_in x) = [] /\
  count rerenders (trace_in x) = 0%nat /\
  resolutions (trace_in x) = repeat Granted (requests_in schedule).
Proof.
  intros w Hg x.
  pose proof (exclusive_exec host before _ (exclusive_mount host inputs now0))
    as (_ & _ & Hp).
  fold w in Hp.
  assert (Hi : idle Granted w).
  { repeat split; auto.
    - destruct Hp as [Hp | (j & b & _ & _ & Hr)]; [exact Hp | congruence].
    - unfold acquiring. rewrite Hg. reflexivity. }
  destruct (idle_exec host Granted schedule w Hi) as ((H1 & H2 & _) & H3).
  fold x in H1, H2, H3. tauto.
Qed.

Lemma granted_is_absorbing_witness :
  let inputs := inputs_for camera None in
  let before := [(1, request);
                 (10, settled 0 (provider_settled (response GRANTED true)))] in
  let schedule := [(20, request); (30, appStateChange active);
                   (40, request)] in
  let w := fst (exec android_phone (fst (mount android_phone inputs 0))
                  before) in
  savedState (store w) = Granted /\
  resolutions (trace_in (exec android_phone w schedule))
  = [Granted; Granted] /\
  provider_calls (trace_in (exec android_phone w schedule)) = [].
Proof.
  intros inputs before schedule w.
  assert (Hg : savedState (store w) = Granted) by reflexivity.
  split; [exact Hg |].
  destruct (granted_is_absorbing android_phone inputs 0 before schedule Hg)
    as (_ & _ & H3 & _ & H5).
  split; [exact H5 | exact H3].
Defined.

(** X20.  A call that threw leaves the hook stuck.  When the state is
    [Requesting] and no call is in flight (the one that set the state
    threw at a dialog or at the loading of the images), nothing brings
    the hook out of it: whatever comes next, the state stays
    [Requesting], the provider is never invoked, and every call of
    [request] is resolved at once with [Requesting]. *)
Theorem thrown_call_blocks_requests host inputs now0 before schedule :
  let w := fst (exec host (fst (mount host inputs now0)) before) in
  savedState (store w) = Requesting ->
  pending w = [] ->
  let x := exec host w schedule in
  savedState (store (fst x)) = Requesting /\
  pending (fst x) = [] /\
  provider_calls (trace_in x) = [] /\
  count rerenders (trace_in x) = 0%nat /\
  resolutions (trace_in x) = repeat Requesting (requests_in schedule).
Proof.
  intros w Hr Hp x.
  pose proof (exclusive_exec host before _ (exclusive_mount host inputs now0))
    as (Hl & _).
  fold w in Hl.
  assert (Hi : idle Requesting w).
  { repeat split; auto. unfold acquiring. rewrite Hr, Hl. reflexivity. }
  destruct (idle_exec host Requesting schedule w Hi) as ((H1 & H2 & _) & H3).
  fold x in H1, H2, H3. tauto.
Qed.

Lemma thrown_call_blocks_requests_witness :
  let inputs := inputs_for location None in
  let before :=
    [(1, request);
     (10, settled 0 (provider_settled (response DENIED false)));
     (20, settled 0 (void_settled (Rejected "E_ASSET")))] in
  let schedule := [(30, request); (40, request)] in
  let w := fst (exec android_phone (fst (mount android_phone inputs 0))
                  before) in
  savedState (store w) = Requesting /\
  pending w = [] /\
  resolutions (trace_in (exec android_phone w schedule))
  = [Requesting; Requesting] /\
  provider_calls (trace_in (exec android_phone w schedule)) = [].
Proof.
  intros inputs before schedule w.
  assert (Hr : savedState (store w) = Requesting) by reflexivity.
  assert (Hp : pending w = []) by reflexivity.
  split; [exact Hr |]. split; [exact Hp |].
  destruct (thrown_call_blocks_requests android_phone inputs 0 before schedule
              Hr Hp) as (_ & _ & H3 & _ & H5).
  split; [exact H5 | exact H3].
Defined.

Lemma lookup_head {A : Type} i (a : A) l : lookup i ((i, a) :: l) = Some a.
Proof. simpl. rewrite Nat.eqb_refl. reflexivity. Qed.

(** X21.  A call in flight reads the inputs of the latest render, but
    keeps the methods of the provider it bound when it was made.  When the
    component renders with other inputs while [check()] is awaited, and
    [check()] then answers with a status other than [GRANTED]: with
    [canAskAgain] the call invokes the [ask()] of the kind of permission
    it was made for; without, it enters the Settings Redirect Flow with
    the kind and the reason of the new inputs. *)
Theorem call_in_flight_reads_latest_inputs host w t1 t2 t3 inputs' rc :
  acquiring (store w) = true ->
  status rc <> GRANTED ->
  let i := calls w in
  let w1 := fst (step host w t1 request) in
  let w2 := fst (step host w1 t2 (render inputs')) in
  let x := step host w2 t3 (settled i (provider_settled (Fulfilled rc))) in
  if canAskAgain rc then
    snd x = [(i, invoked_provider
                   (provider_ask (type (savedInputs (store w)))))]
  else
    snd x = [(i, called_openPermissionSettings (type inputs')
                   (getReason inputs'));
             (i, invoked_void
                   (Asset_loadAsync_all
                      (images (settings_steps host (type inputs')))))].
Proof.
  intros Hacq Hng i w1 w2 x.
  assert (H1 : w1 =
    {| store := set_state (set_savedIsAutoRequest (store w) false) Requesting;
       pending :=
         (i, WaitProvider (provider_check (type (savedInputs (store w))))
               (after_check host
                  (provider_ask (type (savedInputs (store w))))))
         :: drop i (pending w);
       listeners := listeners w;
       calls := S (calls w) |}).
  { subst w1. unfold step, resume. cbn [store pending listeners calls].
    rewrite advance_maybeRequestPermission. cbv zeta. rewrite Hacq.
    reflexivity. }
  subst x w2. rewrite H1. clear H1 w1.
  unfold step, settle. cbn [fst store pending listeners calls].
  rewrite lookup_head. unfold resume, after_check. cbn [store].
  assert (Hs : PermissionStatus_eqb (status rc) GRANTED = false)
    by (destruct (status rc); try reflexivity; congruence).
  rewrite Hs.
  destruct (canAskAgain rc); simpl; reflexivity.
Qed.

Lemma call_in_flight_reads_latest_inputs_witness :
  let w := fst (mount android_phone (inputs_for camera None) 0) in
  let rc := {| status := DENIED; canAskAgain := false |} in
  let w1 := fst (step android_phone w 1 request) in
  let w2 := fst (step android_phone w1 2
                   (render (inputs_for location None))) in
  acquiring (store w) = true /\
  status rc <> GRANTED /\
  snd (step android_phone w2 3
         (settled 0 (provider_settled (Fulfilled rc)))) =
  [(0%nat, called_openPermissionSettings location "To scan QR codes:");
   (0%nat, invoked_void
             (Asset_loadAsync_all
                ["./LocationAndroid.png"; "./ToggleOnAndroid.png"]))].
Proof.
  intros w rc w1 w2.
  assert (Ha : acquiring (store w) = true) by reflexivity.
  assert (Hs : status rc <> GRANTED) by discriminate.
  split; [exact Ha |]. split; [exact Hs |].
  exact (call_in_flight_reads_latest_inputs android_phone w 1 2 3
           (inputs_for location None) rc Ha Hs).
Defined.

(** *** Every change of the state is announced *)

Lemma told_refl s : told s false s.
Proof. split; [reflexivity | intros H; contradiction H; reflexivity]. Qed.

Lemma PermissionState_eq_dec (a b : PermissionState) : {a = b} + {a <> b}.
Proof. decide equality. Qed.

Lemma told_trans s0 a s1 b s2 :
  told s0 a s1 -> told s1 b s2 -> told s0 (a || b) s2.
Proof.
  intros [Hi1 Hs1] [Hi2 Hs2]. split; [congruence |].
  intros Hne Hn.
  destruct (PermissionState_eq_dec (savedState s1) (savedState s0)) as [E | E].
  - rewrite Hs2; [apply orb_true_r | congruence | congruence].
  - rewrite Hs1; auto.
Qed.

Lemma announces_bind {A B : Type} F (t : Task A) (f : A -> Task B) :
  forall s0 seen s,
  announces (fun a s0' seen' s' => announces F (f a) s0' seen' s') t s0 seen s ->
  announces F (bind t f) s0 seen s.
Proof.
  induction t as [r | e | k IH | s' k IH | e k IH | k IH | c k IH | c k IH
                 | h k IH]; intros s0 seen s H; simpl in *; auto.
  - destruct H; split; auto.
  - destruct H; split; auto.
  - destruct H; split; auto.
Qed.

Lemma announces_weaken {A : Type} (F G : A -> Store -> bool -> Store -> Prop)
  (t : Task A) :
  (forall a s0 seen s, F a s0 seen s -> G a s0 seen s) ->
  forall s0 seen s, announces F t s0 seen s -> announces G t s0 seen s.
Proof.
  intros HFG.
  induction t as [r | e | k IH | s' k IH | e k IH | k IH | c k IH | c k IH
                 | h k IH]; intros s0 seen s H; simpl in *; auto.
  - destruct H; split; auto.
  - destruct H; split; auto.
  - destruct H; split; auto.
Qed.

(** The synchronous part of a call that announces its changes. *)
Lemma advance_announces t now : forall s0 seen s,
  announces finally_told t s0 seen s ->
  told s0 (seen || existsb rerenders (snd (fst (advance t now s))))
       (fst (fst (advance t now s))) /\
  match snd (advance t now s) with
  | OnProvider _ k => forall o s', announces finally_told (k o) s' false s'
  | OnVoid _ k => forall o s', announces finally_told (k o) s' false s'
  | OnAppState _ k => forall s', announces finally_told k s' false s'
  | _ => True
  end.
Proof.
  induction t as [[] | e | k IH | s' k IH | e k IH | k IH | c k IH | c k IH
                 | f k IH]; intros s0 seen s H; simpl in *.
  - rewrite orb_false_r. split; [exact H | exact I].
  - rewrite orb_false_r. split; [exact H | exact I].
  - apply IH, H.
  - apply IH, H.
  - specialize (IH s0 _ s H).
    destruct (advance k now s) as [[s1 evs] h]. simpl in *.
    rewrite orb_assoc. exact IH.
  - apply IH, H.
  - destruct H as [Ht Hk]. rewrite orb_false_r. split; assumption.
  - destruct H as [Ht Hk]. rewrite orb_false_r. split; assumption.
  - destruct H as [Ht Hk]. rewrite orb_false_r. split; assumption.
Qed.

(** The pieces of [maybeRequestPermission]. *)
Lemma setState_announces {R : Type} F v (k : Task R) s0 seen s :
  told s0 seen s ->
  (forall seen' s', told s0 seen' s' -> announces F k s0 seen' s') ->
  announces F (setState v;; k) s0 seen s.
Proof.
  intros Ht Hk. unfold setState. simpl.
  destruct Ht as [Hi Hs].
  destruct (PermissionState_eqb (savedState s) v) eqn:E; simpl.
  - apply Hk. split; assumption.
  - destruct (opt_noRender (savedInputs s)) eqn:En; simpl; apply Hk.
    + split; [exact Hi |]. intros _ Hn. congruence.
    + split; [exact Hi |]. intros _ _. apply orb_true_r.
Qed.

Lemma setStateAndResolve_announces v s0 seen s :
  told s0 seen s ->
  announces finally_told (setStateAndResolve v) s0 seen s.
Proof.
  intros Ht. unfold setStateAndResolve.
  apply setState_announces; [exact Ht |].
  intros seen' s' Ht'. simpl. unfold finally_told.
  rewrite orb_false_r. exact Ht'.
Qed.

Lemma after_ask_announces rc o s0 seen s :
  told s0 seen s -> announces finally_told (after_ask rc o) s0 seen s.
Proof.
  intros Ht. unfold after_ask.
  destruct o as [ra | e]; [destruct (status ra) |]; simpl;
    rewrite ?orb_false_r;
    try (apply setStateAndResolve_announces; assumption).
  destruct (canAskAgain rc); simpl.
  - apply setStateAndResolve_announces; assumption.
  - split; [assumption |].
    intros [[] | e] s'; simpl.
    + apply setStateAndResolve_announces, told_refl.
    + apply told_refl.
Qed.

Lemma openPermissionSettings_announces host t message s0 seen s :
  told s0 seen s ->
  announces (fun _ s0' seen' s' => told s0' seen' s')
    (openPermissionSettings host t message) s0 seen s.
Proof.
  intros Ht. unfold openPermissionSettings.
  rewrite openAppSettings_emits. simpl. rewrite orb_false_r.
  split; [assumption |].
  intros [[] | e] s1; simpl; [| apply told_refl].
  split; [apply told_refl |].
  intros [[] | e] s2; simpl; [| apply told_refl].
  intros now.
  replace (rerenders (settings_screen host)) with false
    by (unfold settings_screen; destruct (is_ios host); reflexivity).
  simpl. split; [apply told_refl |].
  intros s3. apply told_refl.
Qed.

Lemma after_check_announces host ask o s0 seen s :
  told s0 seen s -> announces finally_told (after_check host ask o) s0 seen s.
Proof.
  intros Ht. unfold after_check.
  destruct o as [rc | e]; simpl.
  2: { rewrite orb_false_r. apply setStateAndResolve_announces; assumption. }
  destruct (PermissionStatus_eqb (status rc) GRANTED).
  { apply setStateAndResolve_announces; assumption. }
  apply announces_bind.
  assert (Hask : forall s0' seen' s', told s0' seen' s' ->
            announces finally_told
              (askOutcome <- try_await ask;; after_ask rc askOutcome)
              s0' seen' s').
  { intros s0' seen' s' Ht'. simpl. split; [assumption |].
    intros o s2. apply after_ask_announces, told_refl. }
  destruct (canAskAgain rc); step_run.
  - apply Hask, Ht.
  - eapply announces_weaken;
      [| apply openPermissionSettings_announces; exact Ht].
    intros u s0' seen' s' Ht'. apply Hask, Ht'.
Qed.

Lemma maybeRequestPermission_announces host s0 seen s :
  told s0 seen s ->
  announces finally_told (maybeRequestPermission host) s0 seen s.
Proof.
  intros Ht. unfold maybeRequestPermission.
  assert (Hwait : forall seen' s', told s0 seen' s' ->
    announces finally_told
      (checkOutcome <- try_await (provider_check (type (savedInputs s)));;
       after_check host (provider_ask (type (savedInputs s))) checkOutcome)
      s0 seen' s').
  { intros seen' s' Ht'. simpl. split; [assumption |].
    intros o s2. apply after_check_announces, told_refl. }
  assert (Ht0 : told s0 seen (set_savedIsAutoRequest s false))
    by exact Ht.
  destruct s as [inputs st auto].
  unfold set_savedIsAutoRequest in *. simpl in Hwait, Ht0. step_run.
  destruct st, auto; step_run; rewrite ?orb_false_r; try exact Ht0.
  all: apply setState_announces; [exact Ht0 | exact Hwait].
Qed.

(** In the event loop. *)
Lemma rerenders_pair (i : nat) evs :
  existsb rerenders (map snd (map (pair i) evs)) = existsb rerenders evs.
Proof. rewrite map_map. simpl. rewrite map_id. reflexivity. Qed.

Lemma resume_announces w now i t s0 seen :
  announced w ->
  announces finally_told t s0 seen (store w) ->
  let x := resume w now i t in
  announced (fst x) /\
  told s0 (seen || existsb rerenders (trace_in x)) (store (fst x)).
Proof.
  intros Hw Ht. unfold resume, trace_in.
  pose proof (advance_announces t now s0 seen (store w) Ht) as [H1 H2].
  destruct (advance t now (store w)) as [[s1 evs] h]. simpl in *.
  rewrite rerenders_pair. split; [| exact H1].
  assert (Hd : Forall (fun p => announces_suspended (snd p))
                 (drop i (pending w))) by (apply Forall_drop, Hw).
  unfold announced. simpl.
  destruct h; simpl; auto; constructor; simpl; auto.
Qed.

Lemma announced_lookup w i b :
  announced w -> lookup i (pending w) = Some b -> announces_suspended b.
Proof.
  intros Hw Hl. apply lookup_in in Hl.
  unfold announced in Hw. rewrite Forall_forall in Hw. apply (Hw _ Hl).
Qed.

Lemma settle_announces w now i a :
  announced w ->
  let x := settle w now i a in
  announced (fst x) /\
  told (store w) (existsb rerenders (trace_in x)) (store (fst x)).
Proof.
  intros Hw. unfold settle.
  destruct (lookup i (pending w)) as [[c k | c k | k] |] eqn:El;
    try (split; [exact Hw | apply told_refl]).
  - destruct a as [o | o]; try (split; [exact Hw | apply told_refl]).
    apply (resume_announces w now i (k o) (store w) false Hw).
    apply (announced_lookup w i _ Hw El).
  - destruct a as [o | o]; try (split; [exact Hw | apply told_refl]).
    apply (resume_announces w now i (k o) (store w) false Hw).
    apply (announced_lookup w i _ Hw El).
Qed.

Lemma foreground_announces w now i :
  announced w ->
  let x := foreground w now i in
  announced (fst x) /\
  told (store w) (existsb rerenders (trace_in x)) (store (fst x)).
Proof.
  intros Hw. unfold foreground.
  destruct (lookup i (pending w)) as [[c k | c k | k] |] eqn:El;
    try (split; [exact Hw | apply told_refl]).
  apply (resume_announces w now i k (store w) false Hw).
  apply (announced_lookup w i _ Hw El).
Qed.

Lemma foreground_all_announces s0 now resolved : forall start,
  announced (fst start) ->
  told s0 (existsb rerenders (trace_in start)) (store (fst start)) ->
  let x := foreground_all now resolved start in
  announced (fst x) /\
  told s0 (existsb rerenders (trace_in x)) (store (fst x)).
Proof.
  unfold foreground_all.
  induction resolved as [| i rest IH]; intros [w evs] Hw Ht; simpl in *.
  - split; assumption.
  - pose proof (foreground_announces w now i Hw) as [H1 H2].
    destruct (foreground w now i) as [w1 evs1]. simpl in *.
    apply IH; simpl; [exact H1 |].
    unfold trace_in in *. simpl in *.
    rewrite map_app, existsb_app. eapply told_trans; eassumption.
Qed.

Lemma dispatch_announces w now next :
  announced w ->
  let x := dispatch w now next in
  announced (fst x) /\
  told (store w) (existsb rerenders (trace_in x)) (store (fst x)).
Proof.
  intros Hw. unfold dispatch.
  apply foreground_all_announces; simpl; [exact Hw |].
  unfold trace_in. simpl.
  replace (existsb rerenders _) with false; [apply told_refl |].
  induction (listeners w) as [| [k h] l IH]; simpl; auto.
  destruct (does removeEventListener (h next now)); simpl; auto.
Qed.

Lemma step_announces host w now i :
  announced w ->
  let x := step host w now i in
  announced (fst x) /\
  (savedState (store (fst x)) <> savedState (store w) ->
   opt_noRender (savedInputs (store w)) = false ->
   existsb rerenders (trace_in x) = true).
Proof.
  intros Hw. destruct i as [inputs | | j a | next]; cbv zeta; unfold step.
  - simpl. split; [exact Hw |]. intros H; contradiction H; reflexivity.
  - match goal with
    | |- context [resume ?w' now ?n ?t] =>
        pose proof (resume_announces w' now n t (store w) false Hw
                      (maybeRequestPermission_announces host _ _ _
                         (told_refl (store w)))) as [H1 H2]
    end.
    split; [exact H1 | apply H2].
  - destruct (settle_announces w now j a Hw) as [H1 H2].
    split; [exact H1 | apply H2].
  - destruct (dispatch_announces w now next Hw) as [H1 H2].
    split; [exact H1 | apply H2].
Qed.

Lemma exec_announces host schedule : forall w,
  announced w -> announced (fst (exec host w schedule)).
Proof.
  induction schedule as [| [now i] rest IH]; intros w Hw; simpl.
  - exact Hw.
  - pose proof (step_announces host w now i Hw) as [H1 _].
    destruct (step host w now i) as [w1 evs1]. simpl in *.
    specialize (IH w1 H1).
    destruct (exec host w1 rest) as [w2 evs2]. exact IH.
Qed.

Lemma mount_announces host inputs now :
  announced (fst (mount host inputs now)).
Proof.
  unfold mount.
  destruct (opt_autoRequest inputs) eqn:Ea; [| constructor].
  match goal with
  | |- context [resume ?w' now ?n ?t] =>
      apply (resume_announces w' now n t (store w') false)
  end; [constructor |].
  unfold requestOnMount. rewrite Ea.
  change (announces finally_told (maybeRequestPermission host)
            (usePermission_first_render inputs) false
            (set_savedIsAutoRequest (usePermission_first_render inputs) true)).
  apply maybeRequestPermission_announces.
  split; [reflexivity | intros H; contradiction H; reflexivity].
Qed.

(** X22.  No change of the state goes unannounced.  For a mounted hook,
    at any point of its life and whatever runs next (a call of [request],
    the answer a call waits for, a change of [AppState]): if that step
    leaves the state other than it found it, and the inputs of the latest
    render do not set [noRender], then the step has called [forceUpdate].
    So the state that a render shows is never stale. *)
Theorem state_change_forces_update host inputs now0 schedule now i :
  let w := fst (exec host (fst (mount host inputs now0)) schedule) in
  let x := step host w now i in
  savedState (store (fst x)) <> savedState (store w) ->
  opt_noRender (savedInputs (store w)) = false ->
  In forceUpdate (trace_in x).
Proof.
  intros w x Hne Hn.
  assert (Hw : announced w) by apply exec_announces, mount_announces.
  destruct (step_announces host w now i Hw) as [_ H].
  specialize (H Hne Hn). apply existsb_exists in H.
  destruct H as (e & Hin & He). destruct e; try discriminate. exact Hin.
Qed.

Lemma state_change_forces_update_witness :
  let inputs := inputs_for camera None in
  let schedule := [(1, request)] in
  let w := fst (exec android_phone (fst (mount android_phone inputs 0))
                  schedule) in
  let i := settled 0 (provider_settled (response GRANTED true)) in
  savedState (store (fst (step android_phone w 10 i))) <> savedState (store w)
  /\
  opt_noRender (savedInputs (store w)) = false /\
  In forceUpdate (trace_in (step android_phone w 10 i)).
Proof.
  intros inputs schedule w i.
  assert (H1 : savedState (store (fst (step android_phone w 10 i)))
               <> savedState (store w)) by (vm_compute; discriminate).
  assert (H2 : opt_noRender (savedInputs (store w)) = false) by reflexivity.
  split; [exact H1 |]. split; [exact H2 |].
  exact (state_change_forces_update android_phone inputs 0 schedule 10 i
           H1 H2).
Defined.

(** *** The listeners on [AppState] *)

Lemma advance_tidy (t : Task unit) now : forall s,
  tidy t ->
  match snd (advance t now s) with
  | OnProvider _ k => forall o, tidy (k o)
  | OnVoid _ k => forall o, tidy (k o)
  | OnAppState f k => tidy_handler f /\ tidy k
  | _ => True
  end.
Proof.
  induction t as [[] | e | k IH | s' k IH | e k IH | k IH | c k IH | c k IH
                 | f k IH]; intros s Ht; simpl in *;
    try exact I; try exact Ht; try (apply IH, Ht).
  specialize (IH s Ht). destruct (advance k now s) as [[s1 evs] h].
  exact IH.
Qed.

Lemma moored_resume w now i t :
  tidy t -> drop i (pending w) = [] -> listeners w = [] ->
  moored (fst (resume w now i t)).
Proof.
  intros Ht Hd Hl. unfold resume.
  pose proof (advance_tidy t now (store w) Ht) as H.
  destruct (advance t now (store w)) as [[s1 evs] h]. simpl in *.
  unfold moored. simpl. rewrite Hd, Hl.
  destruct h as [| e | c k | c k | f k]; simpl.
  - split; [constructor | left; reflexivity].
  - split; [constructor | left; reflexivity].
  - split; [repeat constructor; exact H | left; reflexivity].
  - split; [repeat constructor; exact H | left; reflexivity].
  - destruct H as [Hf Hk].
    split; [repeat constructor; exact Hk |].
    right. exists i, f, k. auto.
Qed.

Lemma moored_step host w now i :
  exclusive w -> moored w -> moored (fst (step host w now i)).
Proof.
  intros Hx Hm. pose proof Hm as [Ht Hl].
  destruct i as [inputs | | j a | next].
  - exact Hm.
  - destruct (pending w) as [| p l] eqn:Ep.
    + unfold step. apply moored_resume.
      * apply tidy_maybeRequestPermission.
      * simpl. rewrite Ep. reflexivity.
      * simpl. destruct Hl as [Hl | (i & h & k & _ & Hp & _)];
          [exact Hl | discriminate].
    + assert (Hne : pending w <> []) by (rewrite Ep; discriminate).
      rewrite (request_while_waiting host w now Hx Hne). exact Hm.
  - unfold step, settle.
    destruct Hx as (_ & _ & [Hp | (i & b & Hp & _ & _)]).
    + rewrite Hp. exact Hm.
    + rewrite Hp in Ht. rewrite Hp at 1. simpl.
      destruct (Nat.eqb j i) eqn:E; [| exact Hm].
      apply Nat.eqb_eq in E. subst j.
      inversion Ht as [| ? ? Hb _]; subst. simpl in Hb.
      assert (Hnone : (forall k, b <> WaitForeground k) -> listeners w = []).
      { intros Hb'.
        destruct Hl as [Hl | (i' & h & k' & _ & Hp' & _)]; [exact Hl |].
        rewrite Hp in Hp'. injection Hp' as _ ->.
        contradiction (Hb' k' eq_refl). }
      destruct b as [c k | c k | k]; destruct a as [o | o]; try exact Hm.
      * apply moored_resume; [apply Hb | rewrite Hp; apply drop_only
                             | apply Hnone; discriminate].
      * apply moored_resume; [apply Hb | rewrite Hp; apply drop_only
                             | apply Hnone; discriminate].
  - unfold step, dispatch.
    destruct Hl as [Hl | (i & h & k & Hl & Hp & Hh)]; rewrite Hl; simpl.
    + split; [exact Ht | left; reflexivity].
    + pose proof (Hh next now) as Hh1.
      destruct (does resolve_undefined (h next now)) eqn:Er; simpl.
      * rewrite (Hh1 eq_refl). simpl.
        unfold foreground_all, foreground. simpl. rewrite Hp. simpl.
        rewrite Nat.eqb_refl.
        match goal with
        | |- context [resume ?w' now i k] =>
            pose proof (moored_resume w' now i k) as Hr;
            destruct (resume w' now i k) as [w1 evs1]
        end.
        simpl in Hr. apply Hr; auto.
        -- rewrite Hp in Ht. inversion Ht; subst. assumption.
        -- rewrite Nat.eqb_refl. reflexivity.
      * unfold foreground_all. simpl.
        split; [exact Ht |]. simpl.
        destruct (does removeEventListener (h next now)); simpl;
          [left; reflexivity |].
        right. exists i, h, k. repeat split; auto.
Qed.

Lemma moored_exec host schedule : forall w,
  exclusive w -> moored w -> moored (fst (exec host w schedule)).
Proof.
  induction schedule as [| [now i] rest IH]; intros w Hx Hm; simpl.
  - exact Hm.
  - pose proof (exclusive_step host w now i Hx) as H1.
    pose proof (moored_step host w now i Hx Hm) as H2.
    destruct (step host w now i) as [w1 evs1]. simpl in *.
    specialize (IH w1 H1 H2).
    destruct (exec host w1 rest) as [w2 evs2]. exact IH.
Qed.

Lemma moored_mount host inputs now : moored (fst (mount host inputs now)).
Proof.
  unfold mount.
  destruct (opt_autoRequest inputs) eqn:Ea.
  - apply moored_resume; try reflexivity.
    unfold requestOnMount. rewrite Ea. simpl. intros s.
    apply tidy_maybeRequestPermission.
  - split; [constructor | left; reflexivity].
Qed.

(** X23.  A mounted hook has at most one listener on [AppState] at any
    time; and when it has one, it is the listener of the one call in
    flight, which is waiting in the Settings Redirect Flow for the app to
    come back, with the state [Requesting]. *)
Theorem one_listener_at_most host inputs now0 schedule :
  let w := fst (exec host (fst (mount host inputs now0)) schedule) in
  (List.length (listeners w) <= 1)%nat /\
  forall i h,
    In (i, h) (listeners w) ->
    listeners w = [(i, h)] /\
    (exists k, pending w = [(i, WaitForeground k)]) /\
    savedState (store w) = Requesting.
Proof.
  intros w.
  assert (Hx : exclusive w) by apply exclusive_exec, exclusive_mount.
  assert (Hm : moored w)
    by (apply moored_exec; [apply exclusive_mount | apply moored_mount]).
  destruct Hm as [_ [Hl | (j & f & k & Hl & Hp & _)]]; rewrite Hl; simpl.
  - split; [lia | intros i h []].
  - split; [lia |]. intros i h [H | []]. injection H as <- <-.
    split; [reflexivity |]. split; [exists k; exact Hp |].
    destruct Hx as (_ & _ & [Hp' | (j' & b & _ & _ & Hs)]);
      [congruence | exact Hs].
Qed.

Lemma one_listener_at_most_witness :
  let before :=
    [(1, request);
     (10, settled 0 (provider_settled (response DENIED false)));
     (20, settled 0 (void_settled (Fulfilled tt)));
     (30, settled 0 (void_settled (Fulfilled tt)));
     (40, appStateChange active);
     (50, request)] in
  let w := fst (exec android_phone
                  (fst (mount android_phone (inputs_for camera None) 0))
                  before) in
  In (0%nat, handleAppStateChange 30) (listeners w) /\
  listeners w = [(0%nat, handleAppStateChange 30)] /\
  savedState (store w) = Requesting.
Proof.
  intros before w.
  assert (Hin : In (0%nat, handleAppStateChange 30) (listeners w))
    by (left; reflexivity).
  split; [exact Hin |].
  destruct (proj2 (one_listener_at_most android_phone
                     (inputs_for camera None) 0 before)
                  0%nat (handleAppStateChange 30) Hin) as (H1 & _ & H3).
  split; [exact H1 | exact H3].
Defined.
